(** * cfn: CloudFormation stack reconciliation (node_modules/cfn/index.js)

    A shallow embedding of the polling, parameter-normalisation and cleanup
    code of the [cfn] module, and the properties of it that the
    specification states.

    Conventions of the embedding:
    - a JavaScript [Date] is the integer [moment(d).valueOf()] (milliseconds);
    - a property that may be [undefined] is an [option];
    - the object [displayedEvents], used as a set of event ids, is the
      [gset] of the ids written to it, read together with the names that a
      plain object inherits from [Object.prototype];
    - the caller's parameter object keeps its keys in insertion order and is
      an association list read and written like a JavaScript object, with
      its inherited properties;
    - a call that can throw ends in a [completion]: it returned, or it threw
      an error, and either way it leaves the poller in a state;
    - promises are modelled by their settlement, remote calls by an oracle
      for the control plane, and the calls a function issues are recorded in
      a trace. *)

From Stdlib Require Import ZArith Ascii String List Bool Lia.
From stdpp Require Import base decidable option list sorting relations gmap strings.

Local Open Scope string_scope.
Local Open Scope list_scope.
Local Open Scope Z_scope.

(** ** Strings *)

Module Str.

(** [String.prototype.toLowerCase] and [toUpperCase] on the ASCII range
    (CloudFormation parameter keys and the action names are ASCII). *)
Definition lower_ascii (c : ascii) : ascii :=
  let n := nat_of_ascii c in
  if ((65 <=? n) && (n <=? 90))%nat then ascii_of_nat (n + 32) else c.

Definition upper_ascii (c : ascii) : ascii :=
  let n := nat_of_ascii c in
  if ((97 <=? n) && (n <=? 122))%nat then ascii_of_nat (n - 32) else c.

Fixpoint map (f : ascii -> ascii) (s : string) : string :=
  match s with
  | EmptyString => EmptyString
  | String c r => String (f c) (map f r)
  end.

(** [_.toLower] *)
Definition toLower (s : string) : string := map lower_ascii s.
Definition toUpperCase (s : string) : string := map upper_ascii s.

Fixpoint prefix (p s : string) : bool :=
  match p, s with
  | EmptyString, _ => true
  | String a p', String b s' => Ascii.eqb a b && prefix p' s'
  | String _ _, EmptyString => false
  end.

(** [RegExp.prototype.test] for a pattern that is a literal text: the text
    occurs somewhere in the subject. *)
Fixpoint includes (p s : string) : bool :=
  prefix p s ||
  match s with
  | EmptyString => false
  | String _ s' => includes p s'
  end.

End Str.

(** ** Regular expressions of the poller

    The two patterns [notExists] and [throttling] of [checkStack] use
    [\s+], [.+] and an optional bracket, so they are matched with
    Brzozowski derivatives. *)

Module Regex.

Inductive re : Type :=
| Void                       (* matches nothing *)
| Eps                        (* the empty word *)
| Chr (c : ascii)
| Dot                        (* [.]: any character but a line terminator *)
| Space                      (* [\s] *)
| Any                        (* any character *)
| Cat (r1 r2 : re)
| Alt (r1 r2 : re)
| Star (r : re).

Definition is_line_terminator (c : ascii) : bool :=
  let n := nat_of_ascii c in ((n =? 10) || (n =? 13))%nat.

Definition is_space (c : ascii) : bool :=
  let n := nat_of_ascii c in
  ((n =? 32) || ((9 <=? n) && (n <=? 13)))%nat.

Fixpoint nullable (r : re) : bool :=
  match r with
  | Void | Chr _ | Dot | Space | Any => false
  | Eps | Star _ => true
  | Cat r1 r2 => nullable r1 && nullable r2
  | Alt r1 r2 => nullable r1 || nullable r2
  end.

Definition cat (r1 r2 : re) : re :=
  match r1, r2 with
  | Void, _ | _, Void => Void
  | Eps, r | r, Eps => r
  | _, _ => Cat r1 r2
  end.

Definition alt (r1 r2 : re) : re :=
  match r1, r2 with
  | Void, r | r, Void => r
  | _, _ => Alt r1 r2
  end.

Definition of_bool (b : bool) : re := if b then Eps else Void.

Fixpoint deriv (c : ascii) (r : re) : re :=
  match r with
  | Void | Eps => Void
  | Chr d => of_bool (Ascii.eqb c d)
  | Dot => of_bool (negb (is_line_terminator c))
  | Space => of_bool (is_space c)
  | Any => Eps
  | Cat r1 r2 =>
      alt (cat (deriv c r1) r2)
          (if nullable r1 then deriv c r2 else Void)
  | Alt r1 r2 => alt (deriv c r1) (deriv c r2)
  | Star r1 => cat (deriv c r1) (Star r1)
  end.

Fixpoint matches (r : re) (s : string) : bool :=
  match s with
  | EmptyString => nullable r
  | String c s' => matches (deriv c r) s'
  end.

Fixpoint lit (s : string) : re :=
  match s with
  | EmptyString => Eps
  | String c s' => Cat (Chr c) (lit s')
  end.

Definition plus (r : re) : re := Cat r (Star r).
Definition opt (r : re) : re := Alt Eps r.

(** [r.test(s)]: the pattern matches somewhere in [s]. *)
Definition test (r : re) (s : string) : bool :=
  matches (Cat (Star Any) (Cat r (Star Any))) s.

End Regex.

(** ** The module's constants *)

Definition ONE_MINUTE : Z := 60000.

Definition success : list string :=
  [ "CREATE_COMPLETE"; "DELETE_COMPLETE"; "UPDATE_COMPLETE" ].

Definition failed : list string :=
  [ "ROLLBACK_FAILED"; "ROLLBACK_IN_PROGRESS"; "ROLLBACK_COMPLETE";
    "UPDATE_ROLLBACK_IN_PROGRESS"; "UPDATE_ROLLBACK_COMPLETE";
    "UPDATE_FAILED"; "DELETE_FAILED" ].

Definition colorMap : list (string * string) :=
  [ ("CREATE_IN_PROGRESS", "gray");
    ("CREATE_COMPLETE", "green");
    ("CREATE_FAILED", "red");
    ("DELETE_IN_PROGRESS", "gray");
    ("DELETE_COMPLETE", "green");
    ("DELETE_FAILED", "red");
    ("ROLLBACK_FAILED", "red");
    ("ROLLBACK_IN_PROGRESS", "yellow");
    ("ROLLBACK_COMPLETE", "red");
    ("UPDATE_IN_PROGRESS", "gray");
    ("UPDATE_COMPLETE", "green");
    ("UPDATE_COMPLETE_CLEANUP_IN_PROGRESS", "green");
    ("UPDATE_ROLLBACK_IN_PROGRESS", "yellow");
    ("UPDATE_ROLLBACK_COMPLETE_CLEANUP_IN_PROGRESS", "yellow");
    ("UPDATE_ROLLBACK_FAILED", "red");
    ("UPDATE_ROLLBACK_COMPLETE", "red");
    ("UPDATE_FAILED", "red") ].

(** [colorMap[status]] *)
Definition color (status : string) : option string :=
  snd <$> List.find (fun entry => String.eqb status (fst entry)) colorMap.

(** [_.includes(list, status)] for a string list. *)
Definition includes (l : list string) (s : string) : bool :=
  existsb (String.eqb s) l.

Arguments includes : simpl never.

(** The property names a plain object inherits from [Object.prototype].  An
    object read under such a name, which it does not have itself, answers
    with what the prototype has there: a function (the prototype itself for
    [__proto__]), which is truthy. *)
Definition Object_prototype : list string :=
  [ "constructor"; "__defineGetter__"; "__defineSetter__"; "hasOwnProperty";
    "__lookupGetter__"; "__lookupSetter__"; "isPrototypeOf";
    "propertyIsEnumerable"; "toString"; "valueOf"; "__proto__";
    "toLocaleString" ].

(** [k in Object.prototype] *)
Definition inherited (k : string) : bool := includes Object_prototype k.

(** The three-way reading of a status that [_processEvents] makes. *)
Inductive classification : Type := pending | succeeded | failure.

Definition classify (status : string) : classification :=
  if includes failed status then failure
  else if includes success status then succeeded
  else pending.

(** ** [_.sortBy], [_.last], [_.take]

    [_.sortBy] is a stable sort on the key; it is written as an insertion
    sort that keeps the listing order of equal keys. *)

Section SortBy.
Context {A : Type} (key : A -> Z).

Fixpoint insert_by (x : A) (l : list A) : list A :=
  match l with
  | [] => [x]
  | y :: ys => if key x <=? key y then x :: y :: ys else y :: insert_by x ys
  end.

Definition sortBy (l : list A) : list A := foldr insert_by [] l.

(** The element with the greatest key, the one listed last among equals. *)
Fixpoint latest_from (cur : A) (l : list A) : A :=
  match l with
  | [] => cur
  | y :: ys => latest_from (if key cur <=? key y then y else cur) ys
  end.

Definition latest (l : list A) : option A :=
  match l with
  | [] => None
  | x :: xs => Some (latest_from x xs)
  end.

Definition ascending (l : list A) : Prop :=
  StronglySorted (fun a b => key a <= key b) l.
End SortBy.

(** [_.take(array, n)]: a negative [n] takes nothing. *)
Definition take_ {A} (l : list A) (n : Z) : list A :=
  take (Z.to_nat n) l.

(** ** Events and the control plane *)

Record Event : Type := {
  EventId : string;
  ResourceType : string;
  LogicalResourceId : string;
  ResourceStatus : string;
  ResourceStatusReason : option string;
  Timestamp : Z
}.

Record EventsPage : Type := {
  StackEvents : list Event;
  NextToken : option string
}.

(** A remote call resolves with data or rejects with an error, kept as the
    text [String(err)] that the code's patterns are tested against. *)
Inductive result (A : Type) : Type :=
| Ok (data : A)
| Err (err : string).
Arguments Ok {A} data.
Arguments Err {A} err.

(** JavaScript truthiness of a string that may be [undefined]. *)
Definition truthy (s : option string) : bool :=
  match s with
  | Some s => negb (String.eqb s "")
  | None => false
  end.

(** ** The poller: [checkStack] *)

Inductive settlement : Type :=
| Pending
| Resolved
| Rejected (msg : string).

Inductive logLine : Type :=
| LogEvent (e : Event)
| LogText (s : string).

Record Poller : Type := {
  displayedEvents : gset string;
  running : bool;
  ticking : bool;              (* the interval has not been cleared *)
  settled : settlement;
  logged : list logLine
}.

Definition newPoller : Poller :=
  {| displayedEvents := ∅; running := false; ticking := true;
     settled := Pending; logged := [] |}.

(** A promise settles once: later calls of [resolve] or [reject] are
    ignored. *)
Definition settle (s new : settlement) : settlement :=
  match s with
  | Pending => new
  | _ => s
  end.

(** What [_failure] is called with. *)
Inductive failureArg : Type :=
| Reason (statusReason : option string)
| Error (err : string).

Module Patterns.
Import Regex.

(** [/ValidationError:\s+Stack\s+\[?.+]?\s+does not exist/] *)
Definition notExists : re :=
  Cat (lit "ValidationError:")
    (Cat (plus Space)
      (Cat (lit "Stack")
        (Cat (plus Space)
          (Cat (opt (Chr "["))
            (Cat (plus Dot)
              (Cat (opt (Chr "]"))
                (Cat (plus Space) (lit "does not exist")))))))).

(** [/Throttling:\s+Rate\s+exceeded/] *)
Definition throttling : re :=
  Cat (lit "Throttling:")
    (Cat (plus Space)
      (Cat (lit "Rate") (Cat (plus Space) (lit "exceeded")))).

(** [/No updates are to be performed/] *)
Definition noUpdates (err : string) : bool :=
  Str.includes "No updates are to be performed" err.
End Patterns.

(** How a call that changes the poller ends: it returns, or it throws an
    error, kept as the text [String(err)].  Either way it leaves the
    poller in a state. *)
Inductive completion : Type :=
| Returned (p : Poller)
| Threw (err : string) (p : Poller).

Definition after (c : completion) : Poller :=
  match c with
  | Returned p => p
  | Threw _ p => p
  end.

Coercion after : completion >-> Poller.

(** The error of calling [chalk[colorMap[status]]] when it is [undefined],
    as Node words it. *)
Definition notAFunction : string :=
  "TypeError: chalk[colorMap[event.ResourceStatus]] is not a function".

Section CheckStack.
(** The variables [checkStack] closes over. *)
Variable startedAt : Z.
Variable action : string.
Variable name : string.

Definition logPrefix : string :=
  (name ++ " " ++ Str.toUpperCase action)%string.

Definition _success (p : Poller) : Poller :=
  {| displayedEvents := displayedEvents p; running := running p;
     ticking := false; settled := settle (settled p) Resolved;
     logged := logged p |}.

(** [msg ? ': ' + msg : '']: the argument of [_failure] is a status reason,
    which may be missing or empty, or an error object, which is truthy. *)
Definition failure_suffix (msg : failureArg) : string :=
  match msg with
  | Reason r => if truthy r then (": " ++ default "" r)%string else ""
  | Error err => (": " ++ err)%string
  end.

Definition _failure (msg : failureArg) (p : Poller) : Poller :=
  let fullMsg := (logPrefix ++ " Failed" ++ failure_suffix msg)%string in
  {| displayedEvents := displayedEvents p; running := running p;
     ticking := false; settled := settle (settled p) (Rejected fullMsg);
     logged := logged p |}.

(** [displayedEvents[event.EventId] = true] *)
Definition mark (p : Poller) (event : Event) : Poller :=
  {| displayedEvents := {[ EventId event ]} ∪ displayedEvents p;
     running := running p; ticking := ticking p; settled := settled p;
     logged := logged p |}.

(** The call of [log] for an event. *)
Definition log_event (p : Poller) (event : Event) : Poller :=
  {| displayedEvents := displayedEvents p; running := running p;
     ticking := ticking p; settled := settled p;
     logged := logged p ++ [LogEvent event] |}.

(** The body of the [_.forEach] of [_processEvents].  The line of an event
    from [startedAt] on is coloured with [chalk[colorMap[status]]], which is
    a function only for a status that [colorMap] lists; for another status
    the call throws, after the event has been marked. *)
Definition display (p : Poller) (event : Event) : completion :=
  let p := mark p event in
  if startedAt <=? Timestamp event then
    match color (ResourceStatus event) with
    | Some _ => Returned (log_event p event)
    | None => Threw notAFunction p
    end
  else Returned p.

(** [_.forEach(events, ...)]: a throw ends it. *)
Fixpoint forEach (p : Poller) (events : list Event) : completion :=
  match events with
  | [] => Returned p
  | event :: events =>
      match display p event with
      | Returned p => forEach p events
      | Threw err p => Threw err p
      end
  end.

(** What the body of the [_.forEach] does to the poller when it returns. *)
Definition show (p : Poller) (event : Event) : Poller :=
  if startedAt <=? Timestamp event
  then log_event (mark p event) event else mark p event.

(** The log line of [event] throws. *)
Definition throws (event : Event) : bool :=
  (startedAt <=? Timestamp event)
  && negb (bool_decide (is_Some (color (ResourceStatus event)))).

Definition isAuthoritative (e : Event) : bool :=
  String.eqb (ResourceType e) "AWS::CloudFormation::Stack" &&
  String.eqb (LogicalResourceId e) name.

(** The decision taken on [lastEvent]. *)
Definition decide_last (lastEvent : option Event) (p : Poller) : Poller :=
  match lastEvent with
  | None => p
  | Some e =>
      if isAuthoritative e then
        if includes failed (ResourceStatus e) && (startedAt <=? Timestamp e)
        then _failure (Reason (ResourceStatusReason e)) p
        else if includes success (ResourceStatus e)
                || (includes failed (ResourceStatus e)
                    && (Timestamp e <? startedAt))
        then _success p
        else p
      else p
  end.

Definition stop_running (p : Poller) : Poller :=
  {| displayedEvents := displayedEvents p; running := false;
     ticking := ticking p; settled := settled p; logged := logged p |}.

Definition _processEvents (p : Poller) (events : list Event) : completion :=
  let events := sortBy Timestamp events in
  match forEach p events with
  | Threw err p => Threw err p
  | Returned p => Returned (stop_running (decide_last (last events) p))
  end.

(** [allRelevantEventsLoaded] *)
Definition allRelevantEventsLoaded (events : list Event) : bool :=
  existsb (fun event => Timestamp event <? startedAt) events.

(** *** [getAllStackEvents]

    [describeStackEvents] is the control plane's answer to a request for
    the page behind a token.  The recursion of [getStackEvents] follows
    the tokens the control plane hands out, so it is bounded by a number
    of requests; a fetch that needs more is still in flight.  The tokens
    requested are recorded. *)

Inductive fetch : Type :=
| Fetched (allEvents : list Event)
| FetchFailed (err : string)
| InFlight.

Section Fetch.
Variable describeStackEvents : option string -> result EventsPage.

(** The test that decides on another request. *)
Definition morePages (data : EventsPage) : bool :=
  truthy (NextToken data) && negb (allRelevantEventsLoaded (StackEvents data)).

Fixpoint getStackEvents (fuel : nat) (next : option string)
    (allEvents : list Event) : fetch * list (option string) :=
  match fuel with
  | O => (InFlight, [])
  | S fuel =>
      match describeStackEvents next with
      | Err err => (FetchFailed err, [next])
      | Ok data =>
          let next' := NextToken data in
          let allEvents := allEvents ++ StackEvents data in
          if morePages data then
            let '(r, requests) := getStackEvents fuel next' allEvents in
            (r, next :: requests)
          else (Fetched allEvents, [next])
      end
  end.

Definition getAllStackEvents (fuel : nat) : fetch * list (option string) :=
  getStackEvents fuel None [].

(** [displayedEvents[id]] is truthy: the id has been marked, or it is a
    property name that the object [displayedEvents] inherits. *)
Definition isDisplayed (p : Poller) (id : string) : Prop :=
  id ∈ displayedEvents p \/ inherited id = true.

(** The events of a fetch that have not been displayed yet. *)
Definition newEvents (p : Poller) (allEvents : list Event) : list Event :=
  filter (fun event => ~ isDisplayed p (EventId event)) allEvents.

Definition start_running (p : Poller) : Poller :=
  {| displayedEvents := displayedEvents p; running := true;
     ticking := ticking p; settled := settled p; logged := logged p |}.

Definition log_text (s : string) (p : Poller) : Poller :=
  {| displayedEvents := displayedEvents p; running := running p;
     ticking := ticking p; settled := settled p;
     logged := logged p ++ [LogText s] |}.

(** The [.catch] of [outputNewStackEvents]; [events] is the list the
    [.then] has filled by then.  What [_processEvents] throws in here is
    caught by nothing. *)
Definition catch (err : string) (events : list Event) (p : Poller) : Poller :=
  if Regex.test Patterns.notExists err then _success p
  else if Regex.test Patterns.throttling err then
    after (_processEvents (log_text "AWS api calls are throttling" p) events)
  else _failure (Error err) p.

(** One tick.  The second component is the list of page requests the
    tick issued.  What [_processEvents] throws in the [.then] goes to the
    [.catch]. *)
Definition outputNewStackEvents (fuel : nat) (p : Poller)
    : Poller * list (option string) :=
  if running p then (p, [])
  else
    let p := start_running p in
    let '(r, requests) := getAllStackEvents fuel in
    match r with
    | Fetched allEvents =>
        let p := stop_running p in
        let events := newEvents p allEvents in
        match _processEvents p events with
        | Returned p => (p, requests)
        | Threw err p => (catch err events p, requests)
        end
    | FetchFailed err => (catch err [] p, requests)
    | InFlight => (p, requests)
    end.
End Fetch.

(** *** The timer

    [world i] is the control plane as the [i]-th tick sees it.  The
    interval fires until it is cleared; [ticks] bounds how many firings
    are followed. *)
Fixpoint run (world : nat -> option string -> result EventsPage)
    (fuel ticks i : nat) (p : Poller) : Poller * list (option string) :=
  match ticks with
  | O => (p, [])
  | S ticks =>
      if ticking p then
        let '(p', requests) := outputNewStackEvents (world i) fuel p in
        let '(p'', requests') := run world fuel ticks (S i) p' in
        (p'', requests ++ requests')
      else (p, [])
  end.

Definition checkStack (world : nat -> option string -> result EventsPage)
    (fuel ticks : nat) : Poller * list (option string) :=
  run world fuel ticks O newPoller.

End CheckStack.

Arguments _processEvents : simpl never.

(** One tick of the timer, against any control plane: the steps of the
    poller. *)
Definition tick_step (startedAt : Z) (action name : string) (p q : Poller)
    : Prop :=
  exists describe fuel,
    q = (outputNewStackEvents startedAt action name describe fuel p).1.

(** ** The reconciler: [normalizeParams], [processCfStack], [processStack] *)

(** A value of a caller parameter (the CLI's flags are strings, numbers or
    booleans), or what a read of a plain object finds on [Object.prototype]
    under [name]. *)
Inductive value : Type :=
| VUndefined
| VString (s : string)
| VNumber (n : Z)
| VBool (b : bool)
| VInherited (name : string).

Definition value_truthy (v : value) : bool :=
  match v with
  | VUndefined => false
  | VString s => negb (String.eqb s "")
  | VNumber n => negb (n =? 0)
  | VBool b => b
  | VInherited _ => true
  end.

(** [a || b] *)
Definition or_else (a b : value) : value := if value_truthy a then a else b.

(** A plain object, with [Object.prototype] as its prototype: its own keys
    in their order, with their values.  The values a caller supplies are
    strings, numbers and booleans. *)
Definition obj : Type := list (string * value).

(** [_.keys(o)] *)
Definition keys (o : obj) : list string := o.*1.

(** The own property [k] of [o], if there is one. *)
Fixpoint obj_lookup (k : string) (o : obj) : option value :=
  match o with
  | [] => None
  | (k', v) :: o' => if String.eqb k k' then Some v else obj_lookup k o'
  end.

(** [o[k]]: the own property, else the inherited one, else [undefined]. *)
Definition obj_get (k : string) (o : obj) : value :=
  match obj_lookup k o with
  | Some v => v
  | None => if inherited k then VInherited k else VUndefined
  end.

(** Writing the own property [k]: an existing key keeps its place, a new
    key is added last. *)
Fixpoint obj_define (k : string) (v : value) (o : obj) : obj :=
  match o with
  | [] => [(k, v)]
  | (k', v') :: o' =>
      if String.eqb k k' then (k', v) :: o' else (k', v') :: obj_define k v o'
  end.

(** [o[k] = v].  Under [__proto__], when the object has no such property
    itself, the assignment goes to the setter of [Object.prototype], which
    adds no property and ignores a value that is not an object. *)
Definition obj_set (k : string) (v : value) (o : obj) : obj :=
  if String.eqb k "__proto__" && negb (bool_decide (is_Some (obj_lookup k o)))
  then o
  else obj_define k v o.

(** What [opts.cfParams || {}] can be. *)
Inductive paramsArg : Type :=
| PlainObject (o : obj)
| NotPlainObject.

Module TemplateParameter.
(** An entry of [data.Parameters] in the answer of [getTemplateSummary]. *)
Record t : Type := {
  ParameterKey : string;
  DefaultValue : option string
}.
End TemplateParameter.

Record StackParameter : Type := {
  ParameterKey : string;
  ParameterValue : value
}.

Record TemplateObject : Type := {
  TemplateBody : option string;
  TemplateURL : option string
}.

(** The argument of [createStack] and [updateStack]: the merge of the four
    fields with the template object. *)
Record StackParams : Type := {
  StackName : string;
  Capabilities : list string;
  Parameters : list StackParameter;
  Tags : list (string * string);
  Template : TemplateObject
}.

Module Stacks.
Record Summary : Type := {
  StackName : string;
  CreationTime : Z
}.

Record Page : Type := {
  StackSummaries : list Summary;
  NextToken : option string
}.
End Stacks.

(** The control plane, as the answers it gives.  The event log changes
    while an operation runs, so its answer depends on the tick that asks. *)
Record ControlPlane : Type := {
  getTemplateSummary :
    TemplateObject -> result (option (list TemplateParameter.t));
  updateStack : StackParams -> result unit;
  createStack : StackParams -> result unit;
  deleteStack : string -> result unit;
  describeStackEvents : string -> nat -> option string -> result EventsPage;
  listStacks : option string -> result Stacks.Page
}.

(** What a function does that can be seen from outside. *)
Inductive effect : Type :=
| CallGetTemplateSummary (t : TemplateObject)
| CallUpdateStack (p : StackParams)
| CallCreateStack (p : StackParams)
| CallDeleteStack (StackName : string)
| CallDescribeStackEvents (StackName : string) (NextToken : option string)
| CallListStacks (NextToken : option string)
| Log (line : string)
| LogWillCleanUp (stack : Stacks.Summary)
| LogCleaningUp (stack : Stacks.Summary).

Definition is_poll (e : effect) : bool :=
  match e with
  | CallDescribeStackEvents _ _ => true
  | _ => false
  end.

Section Reconciler.
Variable cf : ControlPlane.

(** The options of the [Cfn] object. *)
Variable async : bool.
Variable capabilities : list string.
Variable tags : list (string * string).

(** [params[_.toLower(k)] = params[k]] *)
Definition lowerKey (params : obj) (k : string) : obj :=
  obj_set (Str.toLower k) (obj_get k params) params.

(** The [forEach] that adds the lower-cased keys to [params]. *)
Definition lowerKeys (params : obj) : obj :=
  foldl lowerKey params (keys params).

(** Every value of [o] is a value of the caller's [params], under the same
    key or under a key that lower-cases to it, and [o] has every key of
    [params]: what holds of the object all through the [forEach]. *)
Definition from_caller (params o : obj) : Prop :=
  (forall k v, obj_lookup k o = Some v ->
     exists k0, (k0, v) ∈ params /\ (k0 = k \/ Str.toLower k0 = k))
  /\ (forall k, k ∈ keys params -> is_Some (obj_lookup k o)).

(** [p.DefaultValue] *)
Definition defaultValue (p : TemplateParameter.t) : value :=
  from_option VString VUndefined (TemplateParameter.DefaultValue p).

(** The [map] over [templateParams]. *)
Definition normalizeParam (params : obj) (p : TemplateParameter.t)
    : StackParameter :=
  let k := Str.toLower (TemplateParameter.ParameterKey p) in
  let v := obj_get k params in
  {| ParameterKey := TemplateParameter.ParameterKey p;
     ParameterValue := or_else v (defaultValue p) |}.

(** [cfParams] is [opts.cfParams || {}], so the first guard, [!params],
    never fires. *)
Definition normalizeParams (templateObject : TemplateObject)
    (params : paramsArg) : result (list StackParameter) * list effect :=
  match params with
  | NotPlainObject => (Ok [], [])
  | PlainObject params =>
      if (Z.of_nat (length (keys params)) <=? 0) then (Ok [], [])
      else
        let params := lowerKeys params in
        match getTemplateSummary cf templateObject with
        | Err err => (Err err, [CallGetTemplateSummary templateObject])
        | Ok data =>
            let templateParams := default [] data in
            (Ok (normalizeParam params <$> templateParams),
             [CallGetTemplateSummary templateObject])
        end
  end.

Definition processCfStack (action : string) (cfparms : StackParams)
    : result unit * list effect :=
  if String.eqb action "update" then
    match updateStack cf cfparms with
    | Ok _ => (Ok (), [CallUpdateStack cfparms])
    | Err err =>
        if negb (Patterns.noUpdates err)
        then (Err err, [CallUpdateStack cfparms])
        else (Ok (), [CallUpdateStack cfparms;
                      Log "No updates are to be performed."])
    end
  else
    match createStack cf cfparms with
    | Ok _ => (Ok (), [CallCreateStack cfparms])
    | Err err => (Err err, [CallCreateStack cfparms])
    end.

(** What the poller did, seen from outside. *)
Definition polls (name : string) (requests : list (option string))
    : list effect :=
  CallDescribeStackEvents name <$> requests.

(** [processStack], from the template object that [processTemplate]
    produced.  [now] is what [Date.now()] returns in [processCfStack];
    [fuel] and [ticks] bound the polling that is followed. *)
Definition processStack (action name : string)
    (template : result TemplateObject) (cfParams : paramsArg)
    (now : Z) (fuel ticks : nat) : settlement * list effect :=
  match template with
  | Err err => (Rejected err, [])
  | Ok templateObject =>
      let '(r, tr1) := normalizeParams templateObject cfParams in
      match r with
      | Err err => (Rejected err, tr1)
      | Ok noramlizedParams =>
          let startedAt := now in
          let '(r, tr2) :=
            processCfStack action
              {| StackName := name; Capabilities := capabilities;
                 Parameters := noramlizedParams; Tags := tags;
                 Template := templateObject |} in
          match r with
          | Err err => (Rejected err, tr1 ++ tr2)
          | Ok _ =>
              if async then (Resolved, tr1 ++ tr2)
              else
                let '(p, requests) :=
                  checkStack startedAt action name
                             (describeStackEvents cf name) fuel ticks in
                (settled p, tr1 ++ tr2 ++ polls name requests)
          end
      end
  end.

(** ** The cleanup scanner: [cleanup]

    [clock i] is what the [i]-th call of [Date.now()] returns. *)
Variable clock : nat -> Z.

Record CleanupOpts : Type := {
  regex : string -> bool;
  minutesOld : option Z;
  dryRun : bool;
  limit : option Z
}.

Section Cleanup.
Variable opts : CleanupOpts.

(** The test of the [.each] callback, at the [t]-th reading of the
    clock. *)
Definition stale (t : nat) (stack : Stacks.Summary) : bool :=
  let millisOld := clock t - (default 0 (minutesOld opts) * ONE_MINUTE) in
  regex opts (Stacks.StackName stack)
  && (Stacks.CreationTime stack <? millisOld).

(** The [.each] over a page: the stacks kept, and the clock readings
    used. *)
Fixpoint each (t : nat) (page stacks : list Stacks.Summary)
    : list Stacks.Summary * nat :=
  match page with
  | [] => (stacks, t)
  | stack :: page =>
      each (S t) page (if stale t stack then stacks ++ [stack] else stacks)
  end.

(** [loop]: [None] when the listing does not end within [fuel] pages. *)
Fixpoint loop (fuel : nat) (t : nat) (next : option string)
    (stacks : list Stacks.Summary)
    : option (result (list Stacks.Summary * nat)) * list effect :=
  match fuel with
  | O => (None, [])
  | S fuel =>
      match listStacks cf next with
      | Err err => (Some (Err err), [CallListStacks next])
      | Ok data =>
          let next' := Stacks.NextToken data in
          let '(stacks, t) := each t (Stacks.StackSummaries data) stacks in
          if truthy next' then
            let '(r, tr) := loop fuel t next' stacks in
            (r, CallListStacks next :: tr)
          else (Some (Ok (stacks, t)), [CallListStacks next])
      end
  end.

(** JavaScript truthiness of [limit]. *)
Definition limit_set : bool :=
  match limit opts with
  | Some n => negb (n =? 0)
  | None => false
  end.

(** The stacks the final [forEach] goes through. *)
Definition selected (stacks : list Stacks.Summary) : list Stacks.Summary :=
  let filteredStacks := sortBy Stacks.CreationTime stacks in
  if limit_set then take_ filteredStacks (default 0 (limit opts))
  else filteredStacks.

(** The body of the final [forEach].  The delete is issued and not
    awaited: what follows it (its polling, its error) is outside of
    what [cleanup] waits for. *)
Definition cleanOne (stack : Stacks.Summary) : list effect :=
  if dryRun opts then [LogWillCleanUp stack]
  else [LogCleaningUp stack; CallDeleteStack (Stacks.StackName stack)].

Definition cleanup (fuel : nat) : option (result unit) * list effect :=
  let '(r, tr) := loop fuel 1%nat None [] in
  match r with
  | None => (None, tr)
  | Some (Err err) => (Some (Err err), tr)
  | Some (Ok (stacks, _)) =>
      (Some (Ok ()), tr ++ concat (cleanOne <$> selected stacks))
  end.
End Cleanup.

End Reconciler.

(** The stack names that delete calls were issued for, in order. *)
Definition deletes (tr : list effect) : list string :=
  omap (fun e => match e with
                 | CallDeleteStack n => Some n
                 | _ => None
                 end) tr.

(** The listing of the control plane from [next] on, page by page: every
    page is the answer to the token of the page before it, and the last
    page is the first one without a token. *)
Fixpoint listing_from (cf : ControlPlane) (next : option string)
    (pages : list Stacks.Page) : Prop :=
  match pages with
  | [] => False
  | page :: pages =>
      listStacks cf next = Ok page
      /\ match pages with
         | [] =>
             Stacks.NextToken page = None \/ Stacks.NextToken page = Some ""
         | _ :: _ =>
             (exists token,
                Stacks.NextToken page = Some token /\ token <> "")
             /\ listing_from cf (Stacks.NextToken page) pages
         end
  end.

(** A stack, looked at at the [t]-th reading of the clock, is a candidate:
    its name matches the pattern and it was created before the threshold,
    [minutesOld] minutes ([0] if not given) before that reading. *)
Definition qualifies (clock : nat -> Z) (opts : CleanupOpts)
    (x : nat * Stacks.Summary) : Prop :=
  regex opts (Stacks.StackName x.2) = true
  /\ Stacks.CreationTime x.2
     < clock x.1 - default 0 (minutesOld opts) * 60000.

Global Instance qualifies_dec clock opts x :
  Decision (qualifies clock opts x) := and_dec _ _.

(** The candidates among the stacks [listed], in their order, when the
    first of them is looked at at the reading [t0] and each of the
    following at the next reading. *)
Definition candidates (clock : nat -> Z) (opts : CleanupOpts) (t0 : nat)
    (listed : list Stacks.Summary) : list Stacks.Summary :=
  (filter (qualifies clock opts)
          (imap (fun i stack => ((t0 + i)%nat, stack)) listed)).*2.

(** ** Scenarios

    Concrete events, pages and control planes that the properties below
    are evaluated on.  The stack is called [demo]. *)

Module Scenario.

Definition stackEvent (id status : string) (ts : Z) : Event :=
  {| EventId := id; ResourceType := "AWS::CloudFormation::Stack";
     LogicalResourceId := "demo"; ResourceStatus := status;
     ResourceStatusReason := None; Timestamp := ts |}.

(** An event of a nested stack: the same resource type and status
    vocabulary, another logical id. *)
Definition nestedEvent (id status : string) (ts : Z) : Event :=
  {| EventId := id; ResourceType := "AWS::CloudFormation::Stack";
     LogicalResourceId := "Child"; ResourceStatus := status;
     ResourceStatusReason := None; Timestamp := ts |}.

Definition bucketEvent (id status : string) (ts : Z) : Event :=
  {| EventId := id; ResourceType := "AWS::S3::Bucket";
     LogicalResourceId := "S3Bucket"; ResourceStatus := status;
     ResourceStatusReason := None; Timestamp := ts |}.

(** A control plane whose event log is one page. *)
Definition onePage (events : list Event)
    : option string -> result EventsPage :=
  fun _ => Ok {| StackEvents := events; NextToken := None |}.

Definition envParameter : TemplateParameter.t :=
{| TemplateParameter.ParameterKey := "Env";
   TemplateParameter.DefaultValue := Some "dev" |}.

Definition regionParameter : TemplateParameter.t :=
{| TemplateParameter.ParameterKey := "Region";
   TemplateParameter.DefaultValue := Some "us-east-1" |}.

Definition template : TemplateObject :=
{| TemplateBody := Some "{}"; TemplateURL := None |}.

(** A control plane for a stack that is up to date: the template declares
    [Env] and [Region], an update is refused as there is nothing to update,
    and the event log ends with the [UPDATE_COMPLETE] of an earlier
    operation. *)
Definition upToDate : ControlPlane :=
{| getTemplateSummary := fun _ => Ok (Some [envParameter; regionParameter]);
   updateStack :=
     fun _ => Err "ValidationError: No updates are to be performed.";
   createStack := fun _ => Ok ();
   deleteStack := fun _ => Ok ();
   describeStackEvents :=
     fun _ _ => onePage [stackEvent "e0" "UPDATE_COMPLETE" 50];
   listStacks :=
     fun _ => Ok {| Stacks.StackSummaries := []; Stacks.NextToken := None |}
|}.

(** The same stack, for a caller that may not read the event log. *)
Definition upToDateUnreadable : ControlPlane :=
{| getTemplateSummary := getTemplateSummary upToDate;
   updateStack := updateStack upToDate;
   createStack := createStack upToDate;
   deleteStack := deleteStack upToDate;
   describeStackEvents :=
     fun _ _ _ => Err "AccessDenied: not authorized to perform DescribeStackEvents";
   listStacks := listStacks upToDate |}.

Definition capabilities : list string :=
[ "CAPABILITY_IAM"; "CAPABILITY_NAMED_IAM" ].

(** An event log of three pages, newest first; the second page reaches
    back before an operation started at 100. *)
Definition page1 : EventsPage :=
{| StackEvents := [stackEvent "e5" "UPDATE_IN_PROGRESS" 210;
                   bucketEvent "b4" "UPDATE_IN_PROGRESS" 205];
   NextToken := Some "t2" |}.

Definition page2 : EventsPage :=
{| StackEvents := [stackEvent "e3" "UPDATE_IN_PROGRESS" 200;
                   stackEvent "e2" "UPDATE_COMPLETE" 50];
   NextToken := Some "t3" |}.

Definition page3 : EventsPage :=
{| StackEvents := [stackEvent "e1" "UPDATE_IN_PROGRESS" 40];
   NextToken := None |}.

Definition threePages (next : option string) : result EventsPage :=
match next with
| None => Ok page1
| Some t =>
    if String.eqb t "t2" then Ok page2
    else if String.eqb t "t3" then Ok page3
    else Err "ValidationError: invalid token"
end.

(** Stacks to clean up.  The clock starts at 10 000 000 ms and a stack must
    be an hour old, so the threshold is near 6 400 000 ms. *)
Definition stack (name : string) (created : Z) : Stacks.Summary :=
{| Stacks.StackName := name; Stacks.CreationTime := created |}.

Definition listing (next : option string) : result Stacks.Page :=
match next with
| None =>
    Ok {| Stacks.StackSummaries :=
            [stack "test-c" 3000000; stack "prod-x" 500000];
          Stacks.NextToken := Some "n2" |}
| Some _ =>
    Ok {| Stacks.StackSummaries :=
            [stack "test-a" 1000000; stack "test-new" 9000000;
             stack "test-b" 2000000];
          Stacks.NextToken := None |}
end.

Definition withStacks : ControlPlane :=
{| getTemplateSummary := getTemplateSummary upToDate;
   updateStack := updateStack upToDate;
   createStack := createStack upToDate;
   deleteStack := deleteStack upToDate;
   describeStackEvents := describeStackEvents upToDate;
   listStacks := listing |}.

Definition clock (i : nat) : Z := 10000000 + Z.of_nat i.

(** [{regex: /^test-/, minutesOld: 60, limit: 2}] *)
Definition oldestTwo : CleanupOpts :=
{| regex := Str.prefix "test-"; minutesOld := Some 60; dryRun := false;
   limit := Some 2 |}.

End Scenario.

(** ** What a pattern recognises

    The words of a regular expression, to state what the patterns of
    [checkStack] recognise. *)

Inductive lang : Regex.re -> string -> Prop :=
| lang_Eps : lang Regex.Eps ""
| lang_Chr c : lang (Regex.Chr c) (String c "")
| lang_Dot c :
    Regex.is_line_terminator c = false -> lang Regex.Dot (String c "")
| lang_Space c : Regex.is_space c = true -> lang Regex.Space (String c "")
| lang_Any c : lang Regex.Any (String c "")
| lang_Cat r1 r2 s1 s2 :
    lang r1 s1 -> lang r2 s2 -> lang (Regex.Cat r1 r2) (String.append s1 s2)
| lang_Alt_l r1 r2 s : lang r1 s -> lang (Regex.Alt r1 r2) s
| lang_Alt_r r1 r2 s : lang r2 s -> lang (Regex.Alt r1 r2) s
| lang_Star_nil r : lang (Regex.Star r) ""
| lang_Star_cons r s1 s2 :
    lang r s1 -> lang (Regex.Star r) s2 ->
    lang (Regex.Star r) (String.append s1 s2).

(** No character of [s] is a line terminator. *)
Fixpoint one_line (s : string) : bool :=
  match s with
  | EmptyString => true
  | String c s' => negb (Regex.is_line_terminator c) && one_line s'
  end.

(** ** The fetch and the timer, looked at from outside *)

(** The events of the page the control plane answers a request with. *)
Definition page_events (describe : option string -> result EventsPage)
    (next : option string) : list Event :=
  match describe next with
  | Ok data => StackEvents data
  | Err _ => []
  end.

(** The timer runs exactly as long as the promise is pending. *)
Definition timer_matches_promise (p : Poller) : Prop :=
  ticking p = true <-> settled p = Pending.

(** The pages of the event log that a fetch from [next] has to read, newest
    first: every page is the answer to the token of the page before it;
    every page but the last carries a token and only events from
    [startedAt] on; the last page carries no token or an event from before
    [startedAt]. *)
Fixpoint log_from (startedAt : Z)
    (describe : option string -> result EventsPage)
    (next : option string) (pages : list EventsPage) : Prop :=
  match pages with
  | [] => False
  | page :: pages =>
      describe next = Ok page
      /\ match pages with
         | [] =>
             (NextToken page = None \/ NextToken page = Some "")
             \/ exists event,
                  event ∈ StackEvents page /\ Timestamp event < startedAt
         | _ :: _ =>
             (exists token, NextToken page = Some token /\ token <> "")
             /\ Forall (fun event => startedAt <= Timestamp event)
                       (StackEvents page)
             /\ log_from startedAt describe (NextToken page) pages
         end
  end.

(** ** The other operations of [Cfn] *)

Definition exists_ : list string :=
  [ "CREATE_COMPLETE"; "UPDATE_COMPLETE"; "ROLLBACK_COMPLETE";
    "UPDATE_ROLLBACK_COMPLETE" ].

Module Described.
(** An entry of [Outputs] in the answer of [describeStacks]. *)
Record Output : Type := {
  OutputKey : string;
  OutputValue : string
}.

(** An entry of [data.Stacks]. *)
Record Stack : Type := {
  StackStatus : string;
  Outputs : option (list Output)
}.
End Described.

(** What [opts.tags || {}] can be. *)
Inductive tagsArg : Type :=
| PlainTags (o : list (string * string))
| NotPlainTags.

(** [tags[key]] *)
Fixpoint tag_get (key : string) (o : list (string * string)) : string :=
  match o with
  | [] => ""
  | (k, v) :: o' => if String.eqb key k then v else tag_get key o'
  end.

(** [convertTags]; a pair stands for [{Key, Value}]. *)
Definition convertTags (tags : tagsArg) : list (string * string) :=
  match tags with
  | NotPlainTags => []
  | PlainTags o => (fun key => (key, tag_get key o)) <$> o.*1
  end.

(** [flow(keyBy('OutputKey'), mapValues('OutputValue'))]: of two outputs
    with one key the later one stays. *)
Definition keyed (outs : list Described.Output) : gmap string string :=
  foldl (fun m o => <[Described.OutputKey o := Described.OutputValue o]> m)
        ∅ outs.

Section Operations.
Variable cf : ControlPlane.

(** The answer of the control plane to [describeStacks]. *)
Variable describeStacks : string -> result (list Described.Stack).

(** The options of the [Cfn] object. *)
Variable async : bool.
Variable capabilities : list string.
Variable tags : tagsArg.
Variable name : string.

(** [overrideName || name] *)
Definition target (overrideName : option string) : string :=
  if truthy overrideName then default "" overrideName else name.

(** [stackExists]: with no stack in the answer, [data.Stacks[0].StackStatus]
    throws and the [catch] answers [false]. *)
Definition stackExists (overrideName : option string) : bool :=
  match describeStacks (target overrideName) with
  | Ok (stack :: _) => includes exists_ (Described.StackStatus stack)
  | Ok [] => false
  | Err _ => false
  end.

(** [createOrUpdate], from the template object that [processTemplate]
    produced.  The probe with [describeStacks] comes first; the effects
    listed are those of [processStack]. *)
Definition createOrUpdate (template : result TemplateObject)
    (cfParams : paramsArg) (now : Z) (fuel ticks : nat)
    : settlement * list effect :=
  processStack cf async capabilities (convertTags tags)
    (if stackExists None then "update" else "create")
    name template cfParams now fuel ticks.

(** [this.delete]; [now] is what [Date.now()] returns. *)
Definition delete_ (overrideName : option string)
    (now : Z) (fuel ticks : nat) : settlement * list effect :=
  let startedAt := now in
  let StackName := target overrideName in
  match deleteStack cf StackName with
  | Err err => (Rejected err, [CallDeleteStack StackName])
  | Ok _ =>
      if async then (Resolved, [CallDeleteStack StackName])
      else
        let '(p, requests) :=
          checkStack startedAt "delete" StackName
                     (describeStackEvents cf StackName) fuel ticks in
        (settled p, CallDeleteStack StackName :: polls StackName requests)
  end.

(** [this.outputs]: [get('Stacks[0].Outputs')] is [undefined] when there is
    no stack or no output, and the map is empty then. *)
Definition outputs : result (gmap string string) :=
  match describeStacks name with
  | Err err => Err err
  | Ok stacks => Ok (keyed (default [] (head stacks ≫= Described.Outputs)))
  end.

(** [this.output]: [data[field] || ''], where [data] is a plain object. *)
Definition output (field : string) : result value :=
  match outputs with
  | Err err => Err err
  | Ok data =>
      Ok (or_else
            (match data !! field with
             | Some v => VString v
             | None => if inherited field then VInherited field else VUndefined
             end)
            (VString ""))
  end.
End Operations.

(** ** More scenarios *)

Module Example.

(** A control plane that has no stack [demo] any more. *)
Definition gone : ControlPlane :=
{| getTemplateSummary := getTemplateSummary Scenario.upToDate;
   updateStack := updateStack Scenario.upToDate;
   createStack := createStack Scenario.upToDate;
   deleteStack := fun _ => Ok ();
   describeStackEvents :=
     fun name _ _ =>
       Err (String.append "ValidationError: Stack ["
              (String.append name "] does not exist"));
   listStacks := listStacks Scenario.upToDate |}.

(** A control plane that refuses every create and update. *)
Definition refusing : ControlPlane :=
{| getTemplateSummary := getTemplateSummary Scenario.upToDate;
   updateStack := fun _ => Err "ValidationError: Template format error";
   createStack :=
     fun _ => Err "AlreadyExistsException: Stack [demo] already exists";
   deleteStack := fun _ => Err "AccessDenied: not authorized";
   describeStackEvents := describeStackEvents Scenario.upToDate;
   listStacks := fun _ => Err "Throttling: Rate exceeded" |}.

(** A control plane that cannot read the template. *)
Definition unreadableTemplate : ControlPlane :=
{| getTemplateSummary :=
     fun _ => Err "ValidationError: Template format error: not well-formed";
   updateStack := fun _ => Ok ();
   createStack := fun _ => Ok ();
   deleteStack := fun _ => Ok ();
   describeStackEvents := describeStackEvents Scenario.upToDate;
   listStacks := listStacks Scenario.upToDate |}.

(** An event log that is throttled at the first tick and ends with the
    stack's [DELETE_COMPLETE] at the second. *)
Definition throttledOnce (i : nat) : option string -> result EventsPage :=
  match i with
  | O => fun _ => Err "Throttling: Rate exceeded"
  | S _ => Scenario.onePage [Scenario.stackEvent "d2" "DELETE_COMPLETE" 300;
                             Scenario.stackEvent "d1" "DELETE_IN_PROGRESS" 200]
  end.

Definition described (name : string)
    : result (list Described.Stack) :=
  if String.eqb name "demo" then
    Ok [{| Described.StackStatus := "UPDATE_COMPLETE";
           Described.Outputs :=
             Some [{| Described.OutputKey := "BucketUrl";
                      Described.OutputValue := "http://test.conor.com" |};
                   {| Described.OutputKey := "Empty";
                      Described.OutputValue := "" |}] |}]
  else Err "ValidationError: Stack with id missing does not exist".

(** A template that declares [Env] and a parameter [Constructor]. *)
Definition declaresConstructor : ControlPlane :=
{| getTemplateSummary :=
     fun _ => Ok (Some [Scenario.envParameter;
                        {| TemplateParameter.ParameterKey := "Constructor";
                           TemplateParameter.DefaultValue := Some "none" |}]);
   updateStack := updateStack Scenario.upToDate;
   createStack := createStack Scenario.upToDate;
   deleteStack := deleteStack Scenario.upToDate;
   describeStackEvents := describeStackEvents Scenario.upToDate;
   listStacks := listStacks Scenario.upToDate |}.

(** [{regex: /^test-/, minutesOld: 60}] *)
Definition allOld : CleanupOpts :=
{| regex := Str.prefix "test-"; minutesOld := Some 60; dryRun := false;
   limit := None |}.

End Example.

(** * Properties *)

(** ** Strings and status lists *)

Lemma lower_ascii_idemp c :
  Str.lower_ascii (Str.lower_ascii c) = Str.lower_ascii c.
Proof.
  destruct c as [[] [] [] [] [] [] [] []]; vm_compute; reflexivity.
Qed.

Lemma toLower_idemp s : Str.toLower (Str.toLower s) = Str.toLower s.
Proof.
  unfold Str.toLower.
  induction s as [|c r IH]; simpl; [reflexivity|].
  rewrite lower_ascii_idemp, IH. reflexivity.
Qed.

Lemma includes_spec l s : includes l s = true <-> s ∈ l.
Proof.
  unfold includes. rewrite existsb_exists. split.
  - intros (x & Hin & Heq). apply String.eqb_eq in Heq. subst.
    by apply list_elem_of_In.
  - intros Hin. exists s.
    split; [by apply list_elem_of_In|apply String.eqb_refl].
Qed.

(** ** Sorting by a key *)

Section SortByFacts.
Context {A : Type} (key : A -> Z).

Lemma insert_by_Permutation x l : insert_by key x l ≡ₚ x :: l.
Proof.
  induction l as [|y ys IH]; simpl; [done|].
  destruct (key x <=? key y); [done|].
  rewrite IH. apply Permutation_swap.
Qed.

Lemma sortBy_Permutation l : sortBy key l ≡ₚ l.
Proof.
  induction l as [|x xs IH]; simpl; [done|].
  rewrite insert_by_Permutation. by f_equiv.
Qed.

Lemma insert_by_ascending x l :
  ascending key l -> ascending key (insert_by key x l).
Proof.
  unfold ascending. induction l as [|y ys IH]; simpl; intros Hs.
  - repeat constructor.
  - apply StronglySorted_inv in Hs as [Hys Hy].
    destruct (key x <=? key y) eqn:E.
    + apply Z.leb_le in E. constructor.
      * by constructor.
      * constructor; [done|].
        eapply Forall_impl; [exact Hy|]. simpl. intros; lia.
    + apply Z.leb_gt in E. constructor; [by apply IH|].
      rewrite insert_by_Permutation. constructor; [lia|done].
Qed.

Lemma sortBy_ascending l : ascending key (sortBy key l).
Proof.
  induction l as [|x xs IH]; simpl.
  - constructor.
  - by apply insert_by_ascending.
Qed.

Lemma sortBy_elem_of x l : x ∈ sortBy key l <-> x ∈ l.
Proof. by rewrite sortBy_Permutation. Qed.


(** In an ascending list the last element has the greatest key. *)
Lemma ascending_last l m x :
  ascending key l -> last l = Some m -> x ∈ l -> key x <= key m.
Proof.
  unfold ascending. induction l as [|y ys IH]; intros Hs Hl Hx; [done|].
  apply StronglySorted_inv in Hs as [Hys Hy].
  destruct ys as [|z zs].
  - simpl in Hl. apply list_elem_of_singleton in Hx. simplify_eq. lia.
  - change (last (z :: zs) = Some m) in Hl.
    apply elem_of_cons in Hx as [->|Hx]; [|by apply IH].
    rewrite Forall_forall in Hy. apply Hy.
    rewrite last_lookup in Hl. by eapply list_elem_of_lookup_2.
Qed.

Lemma last_insert_by x l :
  ascending key l ->
  last (insert_by key x l) =
    Some match last l with
         | None => x
         | Some m => if key x <=? key m then m else x
         end.
Proof.
  induction l as [|y ys IH]; intros Hs; [done|].
  pose proof Hs as Hs'. apply StronglySorted_inv in Hs' as [Hys Hy].
  simpl insert_by. destruct (key x <=? key y) eqn:E.
  - destruct (last (y :: ys)) as [m|] eqn:Hl.
    + change (last (x :: y :: ys)) with (last (y :: ys)). rewrite Hl.
      apply Z.leb_le in E.
      assert (key y <= key m).
      { eapply ascending_last; [exact Hs|exact Hl|left]. }
      destruct (key x <=? key m) eqn:E'; [done|]. apply Z.leb_gt in E'. lia.
    + by apply last_None in Hl.
  - rewrite !last_cons, IH by done.
    destruct (last ys) as [m|]; [done|]. by rewrite E.
Qed.

Lemma latest_from_spec c l :
  latest_from key c l =
    match latest key l with
    | None => c
    | Some m => if key c <=? key m then m else c
    end.
Proof.
  revert c. induction l as [|y ys IH]; intros c; [done|].
  simpl. rewrite (IH y), IH.
  destruct (latest key ys) as [m|];
    destruct (Z.leb_spec (key c) (key y));
    try destruct (Z.leb_spec (key y) (key m));
    repeat match goal with
           | |- context [?a <=? ?b] => destruct (Z.leb_spec a b)
           end; try done; lia.
Qed.

(** The event that [_processEvents] decides on: the last of the sorted
    batch is the latest of the batch. *)
Lemma last_sortBy l : last (sortBy key l) = latest key l.
Proof.
  induction l as [|x xs IH]; [done|].
  simpl sortBy. rewrite last_insert_by by apply sortBy_ascending.
  rewrite IH. simpl. rewrite latest_from_spec. done.
Qed.

Lemma latest_from_elem_of c l : latest_from key c l ∈ c :: l.
Proof.
  revert c. induction l as [|y ys IH]; intros c; simpl; [by left|].
  specialize (IH (if key c <=? key y then y else c)).
  apply elem_of_cons in IH as [->|IH].
  - destruct (key c <=? key y); [right; left|left].
  - by do 2 right.
Qed.

Lemma latest_elem_of l m : latest key l = Some m -> m ∈ l.
Proof.
  destruct l as [|x xs]; [done|]. simpl. intros [= <-].
  apply latest_from_elem_of.
Qed.

(** No element has a greater key than the latest. *)
Lemma latest_greatest l m x :
  latest key l = Some m -> x ∈ l -> key x <= key m.
Proof.
  rewrite <- last_sortBy. intros Hl Hx.
  eapply ascending_last; [apply sortBy_ascending|done|by apply sortBy_elem_of].
Qed.
End SortByFacts.

(** ** The poller *)

Lemma success_not_failed s : includes success s = true -> includes failed s = false.
Proof.
  rewrite includes_spec. unfold success. rewrite !elem_of_cons.
  intros [->|[->|[->|H]]]; [reflexivity..|by apply elem_of_nil in H].
Qed.

Section PollerFacts.
Variable startedAt : Z.
Variable action name : string.

Abbreviation process := (_processEvents startedAt action name).
Abbreviation decision := (decide_last startedAt action name).
Abbreviation tick := (outputNewStackEvents startedAt action name).
Abbreviation authoritative := (isAuthoritative name).
Abbreviation shows := (show startedAt).
Abbreviation quiet := (fun event => throws startedAt event = false).

Lemma isAuthoritative_spec e :
  authoritative e = true <->
  ResourceType e = "AWS::CloudFormation::Stack" /\ LogicalResourceId e = name.
Proof.
  unfold isAuthoritative.
  by rewrite andb_true_iff, !String.eqb_eq.
Qed.

(** The log line of an event does not throw when the event predates
    [startedAt] or [colorMap] lists its status. *)
Lemma throws_spec e :
  throws startedAt e = false
  <-> (startedAt <= Timestamp e -> is_Some (color (ResourceStatus e))).
Proof.
  unfold throws.
  rewrite andb_false_iff, Z.leb_gt, negb_false_iff, bool_decide_eq_true.
  split.
  - intros [?|?] ?; [lia|done].
  - intros H. destruct (Z.lt_ge_cases (Timestamp e) startedAt); [by left|].
    right. apply H. lia.
Qed.

Lemma display_quiet p e :
  throws startedAt e = false -> display startedAt p e = Returned (shows p e).
Proof.
  unfold throws, display, show.
  destruct (startedAt <=? Timestamp e); [|done]. cbn [andb].
  destruct (color (ResourceStatus e)); [done|].
  intros H. apply negb_false_iff, bool_decide_eq_true in H.
  by apply is_Some_None in H.
Qed.

Lemma display_loud p e :
  throws startedAt e = true ->
  display startedAt p e = Threw notAFunction (mark p e).
Proof.
  unfold throws, display.
  destruct (startedAt <=? Timestamp e); [|done]. cbn [andb].
  destruct (color (ResourceStatus e)) as [c|]; [|done].
  intros H. apply negb_true_iff, bool_decide_eq_false in H.
  destruct H. by exists c.
Qed.

Lemma forEach_quiet p l :
  Forall quiet l -> forEach startedAt p l = Returned (foldl shows p l).
Proof.
  revert p. induction l as [|e l IH]; intros p Hq; [done|].
  apply Forall_cons in Hq as [He Hl].
  cbn [forEach foldl]. rewrite display_quiet by done. by apply IH.
Qed.

(** A [forEach] that throws stops at the first event whose line throws:
    the events before it have been displayed, that one has been marked. *)
Lemma forEach_cases p l :
  (Forall quiet l /\ forEach startedAt p l = Returned (foldl shows p l))
  \/ exists front e back,
       l = front ++ e :: back /\ Forall quiet front
       /\ throws startedAt e = true
       /\ forEach startedAt p l
          = Threw notAFunction (mark (foldl shows p front) e).
Proof.
  revert p. induction l as [|e l IH]; intros p.
  - left. by split.
  - cbn [forEach]. destruct (throws startedAt e) eqn:He.
    + right. exists [], e, l. rewrite display_loud by done.
      split_and!; done.
    + rewrite display_quiet by done.
      destruct (IH (shows p e)) as [[Hq ->]|(front & e' & back & -> & Hq & He' & ->)].
      * left. split; [by constructor|done].
      * right. exists (e :: front), e', back.
        split_and!; [done|by constructor|done|done].
Qed.

Lemma foldl_display_settled p l :
  settled (foldl shows p l) = settled p
  /\ ticking (foldl shows p l) = ticking p
  /\ running (foldl shows p l) = running p.
Proof.
  revert p. induction l as [|e l IH]; intros p; [done|].
  simpl. destruct (IH (shows p e)) as (-> & -> & ->).
  unfold show. by destruct (startedAt <=? Timestamp e).
Qed.

Lemma show_displayed p e :
  displayedEvents (shows p e) = {[EventId e]} ∪ displayedEvents p.
Proof. unfold show. by destruct (startedAt <=? Timestamp e). Qed.

Lemma foldl_display_displayed p l :
  displayedEvents (foldl shows p l)
  = list_to_set (EventId <$> l) ∪ displayedEvents p.
Proof.
  revert p. induction l as [|e l IH]; intros p; simpl.
  - by rewrite (left_id_L ∅ (∪)).
  - rewrite IH, show_displayed.
    change (list_to_set (EventId e :: (EventId <$> l)) : gset string)
      with ({[EventId e]} ∪ list_to_set (EventId <$> l) : gset string).
    rewrite !(assoc_L (∪)). f_equal. apply (comm_L (∪)).
Qed.

(** Whether it returns or throws, the [forEach] touches neither the
    promise nor the timer nor the running flag, and it removes no id. *)
Lemma forEach_frame p l :
  settled (forEach startedAt p l) = settled p
  /\ ticking (forEach startedAt p l) = ticking p
  /\ running (forEach startedAt p l) = running p
  /\ displayedEvents p ⊆ displayedEvents (forEach startedAt p l).
Proof.
  destruct (forEach_cases p l)
    as [[_ ->]|(front & e & back & _ & _ & _ & ->)]; cbn [after].
  - destruct (foldl_display_settled p l) as (-> & -> & ->).
    split_and!; try done.
    rewrite foldl_display_displayed. apply union_subseteq_r.
  - cbn [mark settled ticking running displayedEvents].
    destruct (foldl_display_settled p front) as (-> & -> & ->).
    split_and!; try done.
    rewrite foldl_display_displayed.
    etrans; [|apply union_subseteq_r]. apply union_subseteq_r.
Qed.

Lemma decide_last_displayed o p :
  displayedEvents (decision o p) = displayedEvents p.
Proof.
  destruct o as [e|]; [|done]. simpl.
  repeat (case_match; simpl; try done).
Qed.

(** Only the settlement and the timer are touched by the decision, and
    they are read from the poller as it was before the batch. *)
Lemma decide_last_agree o p q :
  settled p = settled q -> ticking p = ticking q ->
  settled (decision o p) = settled (decision o q)
  /\ ticking (decision o p) = ticking (decision o q).
Proof.
  intros Hs Ht. destruct o as [e|]; [|done]. simpl.
  repeat (case_match; simpl; try done); by rewrite Hs.
Qed.

Lemma quiet_sortBy events :
  Forall quiet events -> Forall quiet (sortBy Timestamp events).
Proof. by rewrite sortBy_Permutation. Qed.

(** In a batch whose latest event predates [startedAt] no line throws. *)
Lemma stale_batch_quiet events e :
  latest Timestamp events = Some e -> Timestamp e < startedAt ->
  Forall quiet events.
Proof.
  intros Hl Ht. apply Forall_forall. intros x Hx. apply throws_spec.
  pose proof (latest_greatest Timestamp _ _ _ Hl Hx). lia.
Qed.

(** A batch in which no line throws is displayed event by event, and the
    decision is taken on its last event. *)
Lemma processEvents_quiet p events :
  Forall quiet events ->
  process p events
  = Returned (stop_running
                (decision (last (sortBy Timestamp events))
                   (foldl shows p (sortBy Timestamp events)))).
Proof.
  intros Hq. unfold _processEvents. cbv zeta.
  by rewrite forEach_quiet by by apply quiet_sortBy.
Qed.

(** What [_processEvents] throws is the error of the log line, and by then
    it has touched neither the promise nor the timer. *)
Lemma processEvents_threw p events err q :
  process p events = Threw err q ->
  err = notAFunction
  /\ ~ Forall quiet events
  /\ settled q = settled p /\ ticking q = ticking p
  /\ running q = running p
  /\ displayedEvents p ⊆ displayedEvents q.
Proof.
  unfold _processEvents. cbv zeta.
  pose proof (forEach_frame p (sortBy Timestamp events)) as Hframe.
  destruct (forEach_cases p (sortBy Timestamp events))
    as [[_ Heq]|(front & e & back & Hl & _ & He & Heq)];
    rewrite Heq in Hframe |- *; [done|].
  intros [= <- <-]. cbn [after] in Hframe. split_and!; try tauto.
  intros Hq. apply quiet_sortBy in Hq. rewrite Hl in Hq.
  apply Forall_app in Hq as [_ Hq]. apply Forall_cons in Hq as [Hq _].
  by rewrite Hq in He.
Qed.

Lemma processEvents_decision p events :
  Forall quiet events ->
  settled (process p events)
    = settled (decision (latest Timestamp events) p)
  /\ ticking (process p events)
    = ticking (decision (latest Timestamp events) p).
Proof.
  intros Hq. rewrite processEvents_quiet by done. rewrite last_sortBy.
  cbn [after stop_running settled ticking].
  destruct (foldl_display_settled p (sortBy Timestamp events))
    as (Hs & Ht & _).
  by apply decide_last_agree.
Qed.

Lemma processEvents_displayed p events :
  Forall quiet events ->
  displayedEvents (process p events)
  = list_to_set (EventId <$> events) ∪ displayedEvents p.
Proof.
  intros Hq. rewrite processEvents_quiet by done.
  cbn [after stop_running displayedEvents].
  rewrite decide_last_displayed, foldl_display_displayed.
  f_equal. apply set_eq. intros x.
  rewrite !elem_of_list_to_set, !list_elem_of_fmap.
  by setoid_rewrite sortBy_elem_of.
Qed.

Lemma processEvents_displayed_mono p events :
  displayedEvents p ⊆ displayedEvents (process p events).
Proof.
  destruct (process p events) as [q|err q] eqn:Heq.
  - revert Heq. unfold _processEvents. cbv zeta.
    pose proof (forEach_frame p (sortBy Timestamp events)) as (_ & _ & _ & H).
    destruct (forEach startedAt p (sortBy Timestamp events)); [|done].
    intros [= <-]. cbn [after stop_running displayedEvents] in *.
    by rewrite decide_last_displayed.
  - by apply processEvents_threw in Heq as (_ & _ & _ & _ & _ & H).
Qed.

(** The decision on one event, case by case. *)
Lemma decide_last_cases e p :
  settled p = Pending ->
  let p' := decision (Some e) p in
  (authoritative e = true -> ResourceStatus e ∈ failed ->
   startedAt <= Timestamp e ->
     settled p' =
       Rejected (String.append (logPrefix action name)
                   (String.append " Failed"
                      (failure_suffix (Reason (ResourceStatusReason e)))))
     /\ ticking p' = false)
  /\ (authoritative e = true ->
      ResourceStatus e ∈ success
      \/ (ResourceStatus e ∈ failed /\ Timestamp e < startedAt) ->
        settled p' = Resolved /\ ticking p' = false)
  /\ (authoritative e = false
      \/ ((ResourceStatus e ∉ success) /\ (ResourceStatus e ∉ failed)) ->
        settled p' = Pending /\ ticking p' = ticking p).
Proof.
  intros Hp p'. subst p'. unfold decide_last.
  split; [|split].
  - intros -> Hf Ht. apply includes_spec in Hf as ->.
    apply Z.leb_le in Ht as ->. simpl. by rewrite Hp.
  - intros -> [Hs|[Hf Ht]].
    + apply includes_spec in Hs. rewrite (success_not_failed _ Hs), Hs.
      simpl. by rewrite Hp.
    + apply includes_spec in Hf. rewrite Hf.
      assert ((startedAt <=? Timestamp e) = false) as ->
        by (apply Z.leb_gt; lia).
      assert ((Timestamp e <? startedAt) = true) as ->
        by (apply Z.ltb_lt; lia).
      rewrite orb_true_r. simpl. by rewrite Hp.
  - intros [->|[Hs Hf]]; [done|].
    rewrite <- includes_spec in Hs, Hf.
    apply not_true_is_false in Hs, Hf. rewrite Hs, Hf. simpl.
    by destruct (authoritative e).
Qed.

(** The error of the log line is neither a not-found nor a throttling
    error, so the [catch] rejects with it. *)
Lemma catch_notAFunction events p :
  catch startedAt action name notAFunction events p
  = _failure action name (Error notAFunction) p.
Proof.
  unfold catch.
  assert (Regex.test Patterns.notExists notAFunction = false) as ->
    by (vm_compute; reflexivity).
  assert (Regex.test Patterns.throttling notAFunction = false) as ->
    by (vm_compute; reflexivity).
  done.
Qed.

(** A tick whose fetch succeeded processes the events not displayed
    before. *)
Lemma tick_fetched describe fuel p allEvents requests :
  running p = false ->
  getAllStackEvents startedAt describe fuel = (Fetched allEvents, requests) ->
  Forall quiet (newEvents p allEvents) ->
  tick describe fuel p
  = (after (process (stop_running (start_running p))
                    (newEvents (stop_running (start_running p)) allEvents)),
     requests).
Proof.
  intros Hr Hf Hq. unfold outputNewStackEvents.
  rewrite Hr, Hf. cbv zeta.
  change (newEvents (stop_running (start_running p)) allEvents)
    with (newEvents p allEvents).
  by rewrite processEvents_quiet by done.
Qed.

(** A tick in which a log line throws rejects with the error. *)
Lemma tick_threw describe fuel p allEvents requests :
  running p = false ->
  getAllStackEvents startedAt describe fuel = (Fetched allEvents, requests) ->
  ~ Forall quiet (newEvents p allEvents) ->
  exists q,
    tick describe fuel p
    = (_failure action name (Error notAFunction) q, requests)
    /\ settled q = settled p /\ ticking q = ticking p
    /\ displayedEvents p ⊆ displayedEvents q.
Proof.
  intros Hr Hf Hq. unfold outputNewStackEvents.
  rewrite Hr, Hf. cbv zeta.
  change (newEvents (stop_running (start_running p)) allEvents)
    with (newEvents p allEvents).
  destruct (process _ (newEvents p allEvents)) as [q|err q] eqn:Heq.
  - destruct Hq. destruct (forEach_cases (stop_running (start_running p))
                   (sortBy Timestamp (newEvents p allEvents)))
      as [[Hq _]|(front & e & back & _ & _ & _ & Hthrew)].
    + by rewrite sortBy_Permutation in Hq.
    + unfold _processEvents in Heq. cbv zeta in Heq.
      by rewrite Hthrew in Heq.
  - apply processEvents_threw in Heq as (-> & _ & Hs & Ht & _ & Hd).
    exists q. rewrite catch_notAFunction. by split_and!.
Qed.

(** The set of displayed ids only grows. *)
Lemma tick_displayed_mono describe fuel p :
  displayedEvents p
  ⊆ displayedEvents (tick describe fuel p).1.
Proof.
  unfold outputNewStackEvents.
  destruct (running p); [done|].
  destruct (getAllStackEvents startedAt describe fuel) as [[all|err|] reqs];
    cbv zeta; cbn [fst].
  - pose proof (processEvents_displayed_mono (stop_running (start_running p))
                  (newEvents (stop_running (start_running p)) all)) as Hmono.
    destruct (process _ _) as [q|err q] eqn:Heq; cbn [fst after] in *;
      [done|].
    apply processEvents_threw in Heq as (-> & _).
    by rewrite catch_notAFunction.
  - unfold catch. repeat case_match; cbn [fst]; done.
  - done.
Qed.
End PollerFacts.

(** ** The status lists *)

(** C1. [CREATE_FAILED] is not in the failure list.  The list holds
    [UPDATE_FAILED] and [DELETE_FAILED], and [colorMap] prints
    [CREATE_FAILED] in red like them, but [classify] reads it as pending:
    the stack's own [CREATE_FAILED] event, raised after the operation began,
    leaves the poller running and the promise unsettled. *)
Theorem create_failed_is_pending :
  includes failed "CREATE_FAILED" = false
  /\ classify "CREATE_FAILED" = pending
  /\ includes failed "UPDATE_FAILED" = true
  /\ includes failed "DELETE_FAILED" = true
  /\ color "CREATE_FAILED" = Some "red"
  /\ color "UPDATE_FAILED" = Some "red"
  /\ let p := _processEvents 100 "create" "demo" newPoller
                [Scenario.stackEvent "e1" "CREATE_FAILED" 200] in
     settled p = Pending /\ ticking p = true.
Proof. vm_compute. repeat split. Qed.

(** ** Events that predate the operation *)

(** C2, as the specification states it, fails: the stack's own
    [UPDATE_COMPLETE] event from before [startedAt] resolves the
    operation. *)
Lemma stale_success_resolves :
  let e := Scenario.stackEvent "e0" "UPDATE_COMPLETE" 50 in
  Timestamp e < 100
  /\ isAuthoritative "demo" e = true
  /\ includes success (ResourceStatus e) = true
  /\ settled (_processEvents 100 "update" "demo" newPoller [e]) = Resolved.
Proof. vm_compute. repeat split. Qed.

(** C2, amended.  When the latest event of a batch predates [startedAt], the
    batch never rejects the operation; it resolves it exactly when that
    event is the stack's own and its status is in the success list or in the
    failure list; otherwise the poller stays as it was. *)
Theorem stale_latest_event startedAt action name p events e :
  settled p = Pending ->
  latest Timestamp events = Some e ->
  Timestamp e < startedAt ->
  let p' := _processEvents startedAt action name p events in
  (forall msg, settled p' <> Rejected msg)
  /\ (settled p' = Resolved <->
      (ResourceType e = "AWS::CloudFormation::Stack"
       /\ LogicalResourceId e = name)
      /\ (ResourceStatus e ∈ success \/ ResourceStatus e ∈ failed))
  /\ (settled p' = Pending \/ settled p' = Resolved).
Proof.
  intros Hp Hl Ht p'. subst p'.
  destruct (processEvents_decision startedAt action name p events) as [-> _];
    [by eapply stale_batch_quiet|].
  rewrite Hl.
  destruct (decide_last_cases startedAt action name e p Hp) as (_ & Hok & Hno).
  rewrite <- isAuthoritative_spec, <- !includes_spec.
  destruct (isAuthoritative name e) eqn:Ha.
  - destruct (includes success (ResourceStatus e)) eqn:Hs.
    { apply includes_spec in Hs.
      destruct Hok as [-> _]; [done|by left|].
      split_and!; [done|split; [intros _; split; auto|done]|by right]. }
    destruct (includes failed (ResourceStatus e)) eqn:Hf.
    { apply includes_spec in Hf.
      destruct Hok as [-> _]; [done|by right|].
      split_and!; [done|split; [intros _; split; auto|done]|by right]. }
    destruct Hno as [-> _].
    { right. rewrite <- !includes_spec. by rewrite Hs, Hf. }
    split_and!; [done| |by left].
    split; [done|]. by intros [_ [?|?]].
  - destruct Hno as [-> _]; [by left|].
    split_and!; [done| |by left].
    split; [done|]. by intros [[=] _].
Qed.

Lemma stale_latest_event_witness :
  let e := Scenario.stackEvent "e0" "ROLLBACK_COMPLETE" 50 in
  let p' := _processEvents 100 "create" "demo" newPoller
              [Scenario.bucketEvent "b0" "DELETE_COMPLETE" 40; e] in
  (forall msg, settled p' <> Rejected msg)
  /\ (settled p' = Resolved <->
      (ResourceType e = "AWS::CloudFormation::Stack"
       /\ LogicalResourceId e = "demo")
      /\ (ResourceStatus e ∈ success \/ ResourceStatus e ∈ failed))
  /\ (settled p' = Pending \/ settled p' = Resolved).
Proof.
  apply (stale_latest_event 100 "create" "demo" newPoller
           [Scenario.bucketEvent "b0" "DELETE_COMPLETE" 40;
            Scenario.stackEvent "e0" "ROLLBACK_COMPLETE" 50]).
  - reflexivity.
  - reflexivity.
  - simpl. lia.
Defined.

(** ** The decision of a tick *)

(** C4, as the specification states it, fails: the stack's own
    [UPDATE_COMPLETE] event, raised after [startedAt], does not end the
    operation when a later event is fetched with it; and as it is displayed
    by then, no later tick looks at it again. *)
Lemma terminal_event_before_last_is_passed_over :
  let e := Scenario.stackEvent "e1" "UPDATE_COMPLETE" 200 in
  let batch := [Scenario.bucketEvent "b1" "UPDATE_COMPLETE" 300; e] in
  let p1 := (outputNewStackEvents 100 "update" "demo"
               (Scenario.onePage batch) 5 newPoller).1 in
  let pn := (checkStack 100 "update" "demo"
               (fun _ => Scenario.onePage batch) 5 10).1 in
  e ∈ batch
  /\ isAuthoritative "demo" e = true
  /\ classify (ResourceStatus e) = succeeded
  /\ 100 <= Timestamp e
  /\ settled p1 = Pending /\ ticking p1 = true
  /\ settled pn = Pending /\ ticking pn = true.
Proof.
  split; [right; left|]. vm_compute. repeat split; discriminate.
Qed.

(** C4, amended.  Take a tick whose fetch succeeded and in which every
    event not displayed before that is raised at or after [startedAt]
    carries a status that [colorMap] lists.  The tick decides on one event,
    the latest of the events it had not displayed before (the last one
    fetched among those of the greatest timestamp).  If that event is the
    stack's own, a status in the failure list at or after [startedAt]
    rejects the operation with the status reason, and a status in the
    success list, or in the failure list before [startedAt], resolves it;
    in each case the timer is cleared.  In every other case, and when
    nothing new was fetched, the poller keeps running. *)
Theorem tick_decides_on_latest_event
    startedAt action name describe fuel p allEvents requests :
  running p = false ->
  settled p = Pending ->
  getAllStackEvents startedAt describe fuel = (Fetched allEvents, requests) ->
  (forall e, e ∈ newEvents p allEvents -> startedAt <= Timestamp e ->
     is_Some (color (ResourceStatus e))) ->
  let p' := (outputNewStackEvents startedAt action name describe fuel p).1 in
  let batch := newEvents p allEvents in
  (batch = [] -> settled p' = Pending /\ ticking p' = ticking p)
  /\ forall e, latest Timestamp batch = Some e ->
      (ResourceType e = "AWS::CloudFormation::Stack" ->
       LogicalResourceId e = name ->
       ResourceStatus e ∈ failed -> startedAt <= Timestamp e ->
         settled p' =
           Rejected (String.append (logPrefix action name)
                       (String.append " Failed"
                          (failure_suffix (Reason (ResourceStatusReason e)))))
         /\ ticking p' = false)
      /\ (ResourceType e = "AWS::CloudFormation::Stack" ->
          LogicalResourceId e = name ->
          ResourceStatus e ∈ success
          \/ (ResourceStatus e ∈ failed /\ Timestamp e < startedAt) ->
            settled p' = Resolved /\ ticking p' = false)
      /\ (ResourceType e <> "AWS::CloudFormation::Stack"
          \/ LogicalResourceId e <> name
          \/ ((ResourceStatus e ∉ success) /\ (ResourceStatus e ∉ failed)) ->
            settled p' = Pending /\ ticking p' = ticking p).
Proof.
  intros Hr Hp Hf Hlisted p' batch. subst p'.
  assert (Forall (fun e => throws startedAt e = false) batch) as Hq.
  { apply Forall_forall. intros e He. apply throws_spec. by apply Hlisted. }
  rewrite (tick_fetched _ _ _ _ _ _ _ _ Hr Hf Hq). cbn [fst].
  change (newEvents (stop_running (start_running p)) allEvents) with batch.
  set (q := stop_running (start_running p)).
  destruct (processEvents_decision startedAt action name q batch Hq)
    as [-> ->].
  split.
  - by intros ->.
  - intros e ->.
    destruct (decide_last_cases startedAt action name e q Hp)
      as (Hfail & Hok & Hno).
    rewrite isAuthoritative_spec in Hfail, Hok.
    split_and!.
    + intros. by apply Hfail.
    + intros. by apply Hok.
    + intros Hcase. apply Hno.
      destruct Hcase as [Hn|[Hn|Hn]]; [left..|by right];
        apply not_true_is_false; rewrite isAuthoritative_spec; tauto.
Qed.

Lemma tick_decides_on_latest_event_witness :
  let e := Scenario.stackEvent "e2" "UPDATE_ROLLBACK_COMPLETE" 300 in
  let p' := (outputNewStackEvents 100 "update" "demo"
               (Scenario.onePage
                  [e; Scenario.bucketEvent "b1" "UPDATE_FAILED" 200])
               5 newPoller).1 in
  settled p' = Rejected "demo UPDATE Failed" /\ ticking p' = false.
Proof.
  intros e p'.
  assert (forall x,
            x ∈ newEvents newPoller
                  [e; Scenario.bucketEvent "b1" "UPDATE_FAILED" 200] ->
            100 <= Timestamp x -> is_Some (color (ResourceStatus x)))
    as Hlisted.
  { intros x Hx _. apply list_elem_of_filter in Hx as [_ Hx].
    rewrite !elem_of_cons in Hx.
    destruct Hx as [->|[->|Hx]]; [by eexists..|by apply elem_of_nil in Hx]. }
  destruct (tick_decides_on_latest_event 100 "update" "demo"
              (Scenario.onePage
                 [e; Scenario.bucketEvent "b1" "UPDATE_FAILED" 200])
              5 newPoller
              [e; Scenario.bucketEvent "b1" "UPDATE_FAILED" 200] [None]
              eq_refl eq_refl eq_refl Hlisted) as [_ Hlatest].
  destruct (Hlatest e eq_refl) as (Hfail & _ & _).
  apply Hfail; try reflexivity.
  - unfold failed. rewrite !elem_of_cons. do 4 right. by left.
  - simpl. lia.
Defined.

(** ** Nested stacks *)

(** X20.  Take a batch in which every event from [startedAt] on carries a
    status that [colorMap] lists.  If no event of the batch has the stack's
    name as its logical id, the batch leaves a running poller running,
    whatever the statuses in it; and when the batch does end the operation,
    its latest event is of type [AWS::CloudFormation::Stack] and carries the
    stack's name. *)
Theorem listed_batch_ends_on_own_event startedAt action name p events :
  settled p = Pending ->
  ticking p = true ->
  (forall e, e ∈ events -> startedAt <= Timestamp e ->
     is_Some (color (ResourceStatus e))) ->
  let p' := _processEvents startedAt action name p events in
  ((forall e, e ∈ events -> LogicalResourceId e <> name) ->
     settled p' = Pending /\ ticking p' = true)
  /\ (settled p' <> Pending \/ ticking p' = false ->
      exists e, e ∈ events /\ latest Timestamp events = Some e
        /\ ResourceType e = "AWS::CloudFormation::Stack"
        /\ LogicalResourceId e = name).
Proof.
  intros Hp Ht Hlisted p'. subst p'.
  assert (Forall (fun e => throws startedAt e = false) events) as Hq.
  { apply Forall_forall. intros e He. apply throws_spec. by apply Hlisted. }
  destruct (processEvents_decision startedAt action name p events Hq)
    as [-> ->].
  destruct (latest Timestamp events) as [e|] eqn:Hl.
  - pose proof (latest_elem_of _ _ _ Hl) as Hin.
    destruct (decide_last_cases startedAt action name e p Hp)
      as (_ & _ & Hno).
    destruct (isAuthoritative name e) eqn:Ha.
    + apply isAuthoritative_spec in Ha as [Hty Hid]. split.
      * intros Hnested. by destruct (Hnested e Hin).
      * intros _. by exists e.
    + destruct Hno as [-> ->]; [by left|]. rewrite Ht. split; [done|].
      by intros [?|?].
  - simpl. rewrite Hp, Ht. split; [done|]. by intros [?|?].
Qed.

Lemma listed_batch_ends_on_own_event_witness :
  let p' := _processEvents 100 "update" "demo" newPoller
              [Scenario.nestedEvent "n1" "UPDATE_COMPLETE" 200;
               Scenario.nestedEvent "n2" "ROLLBACK_FAILED" 300] in
  settled p' = Pending /\ ticking p' = true.
Proof.
  refine (proj1 (listed_batch_ends_on_own_event 100 "update" "demo" newPoller
            [Scenario.nestedEvent "n1" "UPDATE_COMPLETE" 200;
             Scenario.nestedEvent "n2" "ROLLBACK_FAILED" 300] _ _ _) _);
    try reflexivity.
  - intros e. rewrite !elem_of_cons.
    intros [->|[->|H]] _; [by eexists..|by apply elem_of_nil in H].
  - intros e. rewrite !elem_of_cons.
    intros [->|[->|H]]; [discriminate..|by apply elem_of_nil in H].
Defined.

(** C5 fails on a status that [colorMap] does not list.  A tick fetches
    one event, raised after [startedAt] by a nested stack with the status
    [DELETE_SKIPPED]: the event is not the stack's own, yet the tick
    rejects the operation, with the error thrown by the log line, and
    clears the timer. *)
Theorem nested_event_of_unlisted_status_rejects :
  let e := Scenario.nestedEvent "n1" "DELETE_SKIPPED" 200 in
  let p' := (outputNewStackEvents 100 "update" "demo"
               (Scenario.onePage [e]) 5 newPoller).1 in
  ResourceType e = "AWS::CloudFormation::Stack"
  /\ LogicalResourceId e <> "demo"
  /\ isAuthoritative "demo" e = false
  /\ 100 <= Timestamp e
  /\ color (ResourceStatus e) = None
  /\ _processEvents 100 "update" "demo" newPoller [e]
     = Threw notAFunction (mark newPoller e)
  /\ settled p'
     = Rejected "demo UPDATE Failed: TypeError: chalk[colorMap[event.ResourceStatus]] is not a function"
  /\ ticking p' = false.
Proof. vm_compute. repeat split; discriminate. Qed.

(** ** Displayed events *)

Lemma tick_steps_displayed_mono startedAt action name p q :
  rtc (tick_step startedAt action name) p q ->
  displayedEvents p ⊆ displayedEvents q.
Proof.
  induction 1 as [p|p q r (describe & fuel & ->) _ IH]; [done|].
  etrans; [|exact IH]. apply tick_displayed_mono.
Qed.

Lemma newEvents_not_displayed p allEvents e :
  e ∈ newEvents p allEvents
  <-> e ∈ allEvents /\ (EventId e ∉ displayedEvents p)
      /\ inherited (EventId e) = false.
Proof.
  unfold newEvents, isDisplayed. rewrite list_elem_of_filter.
  destruct (inherited (EventId e)); intuition congruence.
Qed.

(** An event whose id is a name that a plain object inherits is never new:
    [displayedEvents[id]] is truthy from the start. *)
Example inherited_id_is_never_new :
  newEvents newPoller [Scenario.stackEvent "constructor" "UPDATE_COMPLETE" 200;
                       Scenario.stackEvent "e1" "UPDATE_COMPLETE" 200]
  = [Scenario.stackEvent "e1" "UPDATE_COMPLETE" 200].
Proof. vm_compute. reflexivity. Qed.

(** A tick that leaves the timer running has displayed every event it took
    as new. *)
Lemma tick_displays_new_events
    startedAt action name describe fuel p allEvents requests e :
  running p = false ->
  getAllStackEvents startedAt describe fuel = (Fetched allEvents, requests) ->
  ticking (outputNewStackEvents startedAt action name describe fuel p).1
  = true ->
  e ∈ newEvents p allEvents ->
  EventId e
  ∈ displayedEvents
      (outputNewStackEvents startedAt action name describe fuel p).1.
Proof.
  intros Hr Hf Ht He.
  destruct (decide (Forall (fun e => throws startedAt e = false)
                      (newEvents p allEvents))) as [Hq|Hq].
  - rewrite (tick_fetched _ _ _ _ _ _ _ _ Hr Hf Hq). cbn [fst].
    rewrite processEvents_displayed by done. apply elem_of_union_l.
    apply elem_of_list_to_set, list_elem_of_fmap. by exists e.
  - destruct (tick_threw _ action name _ _ _ _ _ Hr Hf Hq) as (q & Heq & _).
    by rewrite Heq in Ht.
Qed.

(** C6.  Take a tick that passes an event on as new and leaves the timer
    running, so that later ticks follow.  The id of the event is in the set
    of displayed ids, it stays there through any number of later ticks, and
    the events a later tick takes as new never include that id, whatever
    pages the control plane returns then. *)
Theorem displayed_event_is_not_new_again
    startedAt action name describe fuel p allEvents requests e q later :
  running p = false ->
  getAllStackEvents startedAt describe fuel = (Fetched allEvents, requests) ->
  e ∈ newEvents p allEvents ->
  ticking (outputNewStackEvents startedAt action name describe fuel p).1
  = true ->
  rtc (tick_step startedAt action name)
      (outputNewStackEvents startedAt action name describe fuel p).1 q ->
  displayedEvents p ⊆ displayedEvents q
  /\ EventId e ∈ displayedEvents q
  /\ EventId e ∉ EventId <$> newEvents q later.
Proof.
  intros Hr Hf He Ht Hsteps.
  pose proof (tick_steps_displayed_mono _ _ _ _ _ Hsteps) as Hmono.
  assert (EventId e ∈ displayedEvents q) as Hq.
  { apply Hmono. by eapply tick_displays_new_events. }
  split_and!; [|done|].
  - etrans; [|exact Hmono]. apply tick_displayed_mono.
  - intros (e' & Hid & Hin)%list_elem_of_fmap.
    apply newEvents_not_displayed in Hin as (_ & Hnew & _).
    apply Hnew. by rewrite <- Hid.
Qed.

Lemma displayed_event_is_not_new_again_witness :
  let e := Scenario.stackEvent "e1" "UPDATE_IN_PROGRESS" 200 in
  let e' := Scenario.stackEvent "e2" "UPDATE_COMPLETE" 300 in
  let p1 := (outputNewStackEvents 100 "update" "demo"
               (Scenario.onePage [e]) 5 newPoller).1 in
  e ∈ newEvents newPoller [e]
  /\ ticking p1 = true
  /\ EventId e ∈ displayedEvents p1
  /\ (EventId e ∉ EventId <$> newEvents p1 [e'; e])
  /\ newEvents p1 [e'; e] = [e'].
Proof.
  intros e e' p1.
  assert (e ∈ newEvents newPoller [e]) as Hnew.
  { apply newEvents_not_displayed.
    split_and!; [by left|apply not_elem_of_empty|reflexivity]. }
  assert (ticking p1 = true) as Ht by reflexivity.
  destruct (displayed_event_is_not_new_again 100 "update" "demo"
              (Scenario.onePage [e]) 5 newPoller [e] [None] e p1 [e'; e]
              eq_refl eq_refl Hnew Ht (rtc_refl _ _)) as (_ & Hin & Hout).
  split_and!; [exact Hnew|exact Ht|exact Hin|exact Hout|].
  vm_compute. reflexivity.
Defined.

(** ** Paging through the event log *)

Lemma allRelevantEventsLoaded_false startedAt events :
  allRelevantEventsLoaded startedAt events = false
  <-> Forall (fun event => startedAt <= Timestamp event) events.
Proof.
  unfold allRelevantEventsLoaded.
  induction events as [|e events IH]; simpl.
  - split; [constructor|done].
  - rewrite orb_false_iff, IH, Forall_cons, Z.ltb_ge. tauto.
Qed.

Lemma truthy_spec s : truthy s = true <-> exists token, s = Some token /\ token <> "".
Proof.
  destruct s as [t|]; simpl.
  - rewrite negb_true_iff, String.eqb_neq. split.
    + intros Hne. by exists t.
    + by intros (t' & [= <-] & Hne).
  - split; [done|]. by intros (t & [=] & _).
Qed.

Lemma morePages_spec startedAt data :
  morePages startedAt data = true
  <-> (exists token, NextToken data = Some token /\ token <> "")
      /\ Forall (fun event => startedAt <= Timestamp event) (StackEvents data).
Proof.
  unfold morePages.
  by rewrite andb_true_iff, negb_true_iff, truthy_spec,
    allRelevantEventsLoaded_false.
Qed.

(** The requests of a fetch: the page asked for, then those of the fetch
    that follows it, if one does. *)
Lemma getStackEvents_requests startedAt describe fuel next allEvents :
  (getStackEvents startedAt describe (S fuel) next allEvents).2
  = next :: match describe next with
            | Ok data =>
                if morePages startedAt data
                then (getStackEvents startedAt describe fuel (NextToken data)
                        (allEvents ++ StackEvents data)).2
                else []
            | Err _ => []
            end.
Proof.
  cbn [getStackEvents]. destruct (describe next) as [data|err]; [|done].
  destruct (morePages startedAt data); [|done].
  by destruct (getStackEvents _ _ fuel _ _).
Qed.

(** After any request of a fetch whose page arrives, the next request is
    decided by that page. *)
Lemma getStackEvents_next_request startedAt describe fuel :
  forall next allEvents i token data,
    (getStackEvents startedAt describe fuel next allEvents).2 !! i
    = Some token ->
    describe token = Ok data ->
    (S i < fuel)%nat ->
    (getStackEvents startedAt describe fuel next allEvents).2 !! S i
    = if morePages startedAt data then Some (NextToken data) else None.
Proof.
  induction fuel as [|fuel IH]; intros next allEvents i token data;
    [lia|].
  rewrite getStackEvents_requests. destruct i as [|i].
  - intros [= <-] Hd Hlt. rewrite Hd. cbn [lookup list_lookup].
    destruct fuel as [|fuel]; [lia|].
    destruct (morePages startedAt data); [|done].
    by rewrite getStackEvents_requests.
  - intros Hi Hd Hlt. cbn [lookup list_lookup] in Hi |- *.
    destruct (describe next) as [data0|]; [|done].
    destruct (morePages startedAt data0); [|done].
    apply (IH _ _ i token data); [done|done|lia].
Qed.

(** C7.  A fetch first asks for the page it is started on.  After any page
    of the fetch has arrived, the first or a later one, a request follows
    if and only if the page carries a token and none of its events predates
    [startedAt], and the request that follows asks for the page behind that
    token.  So when the first page holds only events from [startedAt] on and
    the second holds one event from before, the fetch ends with the second
    page: the events of both pages are returned and the token of the second
    page is never requested. *)
Theorem next_page_requested_iff startedAt describe :
  (forall fuel next allEvents,
     head (getStackEvents startedAt describe (S fuel) next allEvents).2
     = Some next)
  /\ (forall fuel next allEvents i token data,
       let requests :=
         (getStackEvents startedAt describe fuel next allEvents).2 in
       requests !! i = Some token ->
       describe token = Ok data ->
       (S i < fuel)%nat ->
       (is_Some (requests !! S i)
        <-> (exists t, NextToken data = Some t /\ t <> "")
            /\ Forall (fun event => startedAt <= Timestamp event)
                      (StackEvents data))
       /\ (forall token', requests !! S i = Some token' ->
             token' = NextToken data))
  /\ (forall fuel events1 events2 t2 t3 old,
       describe None = Ok {| StackEvents := events1; NextToken := Some t2 |} ->
       t2 <> "" ->
       Forall (fun event => startedAt <= Timestamp event) events1 ->
       describe (Some t2)
         = Ok {| StackEvents := events2; NextToken := Some t3 |} ->
       old ∈ events2 -> Timestamp old < startedAt ->
       getAllStackEvents startedAt describe (S (S fuel))
       = (Fetched (events1 ++ events2), [None; Some t2])).
Proof.
  split_and!.
  - intros fuel next allEvents. by rewrite getStackEvents_requests.
  - intros fuel next allEvents i token data requests Hi Hd Hlt.
    subst requests.
    rewrite (getStackEvents_next_request _ _ _ _ _ _ _ _ Hi Hd Hlt).
    rewrite <- morePages_spec.
    destruct (morePages startedAt data).
    + split; [split; eauto|]. by intros ? [= <-].
    + split; [|done]. split; [by intros [? ?]|done].
  - intros fuel events1 events2 t2 t3 old H1 Ht2 Hnew H2 Hold Hts.
    unfold getAllStackEvents. cbn [getStackEvents]. rewrite H1.
    assert (morePages startedAt
              {| StackEvents := events1; NextToken := Some t2 |} = true) as ->.
    { apply morePages_spec. split; [by exists t2|done]. }
    cbn [NextToken StackEvents]. rewrite H2.
    assert (morePages startedAt
              {| StackEvents := events2; NextToken := Some t3 |} = false) as ->.
    { apply not_true_is_false. rewrite morePages_spec. intros [_ Hall].
      cbn [StackEvents] in Hall. rewrite Forall_forall in Hall.
      specialize (Hall old Hold). lia. }
    done.
Qed.

Lemma next_page_requested_iff_witness :
  let requests := (getStackEvents 100 Scenario.threePages 5 None []).2 in
  (is_Some (requests !! 1%nat)
   <-> (exists t, NextToken Scenario.page1 = Some t /\ t <> "")
       /\ Forall (fun event => 100 <= Timestamp event)
                 (StackEvents Scenario.page1))
  /\ (is_Some (requests !! 2%nat)
      <-> (exists t, NextToken Scenario.page2 = Some t /\ t <> "")
          /\ Forall (fun event => 100 <= Timestamp event)
                    (StackEvents Scenario.page2))
  /\ getAllStackEvents 100 Scenario.threePages 5
     = (Fetched (StackEvents Scenario.page1 ++ StackEvents Scenario.page2),
        [None; Some "t2"]).
Proof.
  intros requests.
  destruct (next_page_requested_iff 100 Scenario.threePages)
    as (_ & Hnext & Hscenario).
  split_and!.
  - apply (Hnext 5%nat None [] 0%nat None Scenario.page1);
      [reflexivity|reflexivity|lia].
  - apply (Hnext 5%nat None [] 1%nat (Some "t2") Scenario.page2);
      [reflexivity|reflexivity|lia].
  - apply (Hscenario 3%nat
             (StackEvents Scenario.page1) (StackEvents Scenario.page2)
             "t2" "t3" (Scenario.stackEvent "e2" "UPDATE_COMPLETE" 50)).
    + reflexivity.
    + discriminate.
    + repeat constructor; simpl; lia.
    + reflexivity.
    + right. left.
    + simpl. lia.
Defined.

(** ** An update with nothing to update *)

(** C3, as the specification states it, fails.  When [updateStack] rejects
    with "No updates are to be performed" and the operation is not
    asynchronous, the event log is polled; the operation then settles as
    the poller does, which can be a rejection. *)
Lemma no_updates_is_followed_by_polling :
  let cfparms :=
    {| StackName := "demo"; Capabilities := Scenario.capabilities;
       Parameters := []; Tags := []; Template := Scenario.template |} in
  updateStack Scenario.upToDate cfparms
    = Err "ValidationError: No updates are to be performed."
  /\ processStack Scenario.upToDate false Scenario.capabilities []
       "update" "demo" (Ok Scenario.template) (PlainObject []) 100 5 10
     = (Resolved,
        [CallUpdateStack cfparms; Log "No updates are to be performed.";
         CallDescribeStackEvents "demo" None])
  /\ processStack Scenario.upToDateUnreadable false Scenario.capabilities []
       "update" "demo" (Ok Scenario.template) (PlainObject []) 100 5 10
     = (Rejected "demo UPDATE Failed: AccessDenied: not authorized to perform DescribeStackEvents",
        [CallUpdateStack cfparms; Log "No updates are to be performed.";
         CallDescribeStackEvents "demo" None]).
Proof. vm_compute. repeat split. Qed.

Lemma normalizeParams_no_poll cf templateObject params :
  existsb is_poll (normalizeParams cf templateObject params).2 = false.
Proof.
  unfold normalizeParams. repeat case_match; reflexivity.
Qed.

(** The first tick of a poller asks for the newest page. *)
Lemma checkStack_first_request startedAt action name world fuel ticks :
  exists rest,
    (checkStack startedAt action name world (S fuel) (S ticks)).2
    = None :: rest.
Proof.
  unfold checkStack. cbn [run newPoller ticking].
  unfold outputNewStackEvents. cbn [running getAllStackEvents getStackEvents].
  destruct (world 0%nat None) as [data|err].
  - destruct (morePages startedAt data).
    + destruct (getStackEvents _ _ fuel _ _) as [[all|err|] reqs];
        repeat case_match; simplify_eq; cbn [snd app]; eauto.
    + repeat case_match; simplify_eq; cbn [snd app]; eauto.
  - repeat case_match; simplify_eq; cbn [snd app]; eauto.
Qed.

(** C3, amended.  When the update call rejects with a "No updates are to be
    performed" error, the error is logged and not passed on: the update
    step resolves.  In asynchronous mode the operation then resolves with no
    polling.  Otherwise the poller is started as after any update, its first
    tick requests the newest page of the event log, and the operation
    settles as the poller does. *)
Theorem no_updates_is_swallowed
    cf async capabilities tags name templateObject cfParams now fuel ticks
    noramlizedParams tr err :
  normalizeParams cf templateObject cfParams = (Ok noramlizedParams, tr) ->
  let cfparms :=
    {| StackName := name; Capabilities := capabilities;
       Parameters := noramlizedParams; Tags := tags;
       Template := templateObject |} in
  updateStack cf cfparms = Err err ->
  Patterns.noUpdates err = true ->
  let swallowed :=
    [CallUpdateStack cfparms; Log "No updates are to be performed."] in
  let out :=
    processStack cf async capabilities tags "update" name (Ok templateObject)
                 cfParams now fuel ticks in
  processCfStack cf "update" cfparms = (Ok (), swallowed)
  /\ (async = true ->
      out = (Resolved, tr ++ swallowed) /\ existsb is_poll out.2 = false)
  /\ (async = false ->
      let polling :=
        checkStack now "update" name (describeStackEvents cf name) fuel ticks in
      out = (settled polling.1, tr ++ swallowed ++ polls name polling.2)
      /\ ((0 < fuel)%nat -> (0 < ticks)%nat ->
          CallDescribeStackEvents name None ∈ out.2)).
Proof.
  intros Hnorm cfparms Hupdate Hnone swallowed out.
  assert (processCfStack cf "update" cfparms = (Ok (), swallowed)) as Hcf.
  { unfold processCfStack. cbn [String.eqb Ascii.eqb Bool.eqb].
    fold cfparms. by rewrite Hupdate, Hnone. }
  split; [exact Hcf|].
  subst out. unfold processStack. rewrite Hnorm. fold cfparms. rewrite Hcf.
  split.
  - intros ->. split; [done|]. cbn [snd].
    rewrite existsb_app. replace tr with
      (normalizeParams cf templateObject cfParams).2 by by rewrite Hnorm.
    by rewrite normalizeParams_no_poll.
  - intros ->. cbv zeta.
    destruct (checkStack now "update" name (describeStackEvents cf name)
                fuel ticks) as [p requests] eqn:Hpoll.
    split; [done|]. intros Hfuel Hticks. cbn [snd].
    destruct fuel as [|fuel]; [lia|]. destruct ticks as [|ticks]; [lia|].
    destruct (checkStack_first_request now "update" name
                (describeStackEvents cf name) fuel ticks) as [rest Hrest].
    rewrite Hpoll in Hrest. cbn [snd] in Hrest. subst requests.
    rewrite !elem_of_app. right. right. by left.
Qed.

Lemma no_updates_is_swallowed_witness :
  let cfparms :=
    {| StackName := "demo"; Capabilities := Scenario.capabilities;
       Parameters := [{| ParameterKey := "Env"; ParameterValue := VString "prod" |};
                      {| ParameterKey := "Region";
                         ParameterValue := VString "us-east-1" |}];
       Tags := []; Template := Scenario.template |} in
  processCfStack Scenario.upToDate "update" cfparms
  = (Ok (), [CallUpdateStack cfparms; Log "No updates are to be performed."])
  /\ processStack Scenario.upToDate true Scenario.capabilities [] "update"
       "demo" (Ok Scenario.template)
       (PlainObject [("Env", VString "prod")]) 100 5 10
     = (Resolved,
        [CallGetTemplateSummary Scenario.template; CallUpdateStack cfparms;
         Log "No updates are to be performed."]).
Proof.
  intros cfparms.
  destruct (no_updates_is_swallowed Scenario.upToDate true
              Scenario.capabilities [] "demo" Scenario.template
              (PlainObject [("Env", VString "prod")]) 100 5 10
              (Parameters cfparms)
              [CallGetTemplateSummary Scenario.template]
              "ValidationError: No updates are to be performed."
              eq_refl eq_refl eq_refl) as (Hcf & Hasync & _).
  split; [exact Hcf|]. by destruct (Hasync eq_refl) as [-> _].
Defined.


(** ** Parameters *)

Lemma inherited_spec k : inherited k = true <-> k ∈ Object_prototype.
Proof. apply includes_spec. Qed.

Lemma not_inherited k : k ∉ Object_prototype -> inherited k = false.
Proof. rewrite <- inherited_spec. apply not_true_is_false. Qed.

(** A read finds the own property when there is one. *)
Lemma obj_get_own k o v : obj_lookup k o = Some v -> obj_get k o = v.
Proof. unfold obj_get. by intros ->. Qed.

Lemma obj_lookup_define k k' v o :
  obj_lookup k (obj_define k' v o)
  = if String.eqb k k' then Some v else obj_lookup k o.
Proof.
  induction o as [|[k0 v0] o IH]; simpl.
  - done.
  - destruct (String.eqb k' k0) eqn:E0; simpl.
    + apply String.eqb_eq in E0 as ->. by destruct (String.eqb k k0).
    + rewrite IH. destruct (String.eqb k k0) eqn:E1; [|done].
      apply String.eqb_eq in E1 as ->.
      by rewrite String.eqb_sym, E0.
Qed.

(** A write under another name than [__proto__] defines the property. *)
Lemma obj_set_define k v o : k <> "__proto__" -> obj_set k v o = obj_define k v o.
Proof.
  intros Hk. unfold obj_set.
  by apply String.eqb_neq in Hk as ->.
Qed.

Lemma obj_set_cases k v o : obj_set k v o = o \/ obj_set k v o = obj_define k v o.
Proof. unfold obj_set. destruct (_ && _); auto. Qed.

Lemma obj_lookup_set k k' v o :
  k' <> "__proto__" ->
  obj_lookup k (obj_set k' v o)
  = if String.eqb k k' then Some v else obj_lookup k o.
Proof. intros Hk. rewrite obj_set_define by done. apply obj_lookup_define. Qed.

Lemma obj_lookup_Some k v o : obj_lookup k o = Some v -> (k, v) ∈ o.
Proof.
  induction o as [|[k' v'] o IH]; simpl; [done|].
  destruct (String.eqb k k') eqn:E.
  - apply String.eqb_eq in E as ->. intros [= ->]. by left.
  - intros H. right. by apply IH.
Qed.

Lemma obj_lookup_is_Some k o : k ∈ keys o -> is_Some (obj_lookup k o).
Proof.
  unfold keys. induction o as [|[k' v'] o IH]; simpl.
  - by intros ?%elem_of_nil.
  - intros [->|Hin]%elem_of_cons.
    + by rewrite String.eqb_refl.
    + destruct (String.eqb k k'); [done|]. by apply IH.
Qed.

Section LowerKeys.
Variable params : obj.

Lemma from_caller_init : from_caller params params.
Proof.
  split.
  - intros k v Hk. exists k. split; [by apply obj_lookup_Some|by left].
  - intros k. apply obj_lookup_is_Some.
Qed.

Lemma from_caller_step o k :
  k ∈ keys params ->
  from_caller params o -> from_caller params (lowerKey o k).
Proof.
  intros Hk [Hval Hkeys]. unfold lowerKey.
  destruct (obj_set_cases (Str.toLower k) (obj_get k o) o) as [->| ->];
    [by split|].
  split.
  - intros k1 v. rewrite obj_lookup_define.
    destruct (String.eqb k1 (Str.toLower k)) eqn:E; [|by apply Hval].
    apply String.eqb_eq in E as ->. intros [= <-].
    destruct (Hkeys k Hk) as [v Hv].
    rewrite (obj_get_own _ _ _ Hv).
    destruct (Hval k v Hv) as (k0 & Hin & [->|<-]).
    + exists k. split; [done|by right].
    + exists k0. split; [done|right]. by rewrite toLower_idemp.
  - intros k1 Hk1. rewrite obj_lookup_define.
    destruct (String.eqb k1 (Str.toLower k)); [done|by apply Hkeys].
Qed.

Lemma from_caller_foldl ks o :
  (forall k, k ∈ ks -> k ∈ keys params) ->
  from_caller params o -> from_caller params (foldl lowerKey o ks).
Proof.
  revert o. induction ks as [|k ks IH]; intros o Hks Ho; [done|].
  simpl. apply IH.
  - intros k' Hk'. apply Hks. by right.
  - apply from_caller_step; [|done]. apply Hks. by left.
Qed.

Lemma lowered_foldl ks o k :
  is_Some (obj_lookup k o) -> is_Some (obj_lookup k (foldl lowerKey o ks)).
Proof.
  revert o. induction ks as [|k1 ks IH]; intros o Ho; [done|].
  simpl. apply IH. unfold lowerKey.
  destruct (obj_set_cases (Str.toLower k1) (obj_get k1 o) o) as [->| ->];
    [done|].
  rewrite obj_lookup_define.
  by destruct (String.eqb k (Str.toLower k1)).
Qed.

Lemma lowerKeys_covers ks o k :
  k ∈ ks -> Str.toLower k <> "__proto__" ->
  is_Some (obj_lookup (Str.toLower k) (foldl lowerKey o ks)).
Proof.
  revert o. induction ks as [|k1 ks IH]; intros o Hk Hproto.
  - by apply elem_of_nil in Hk.
  - simpl. apply elem_of_cons in Hk as [->|Hk]; [|by apply IH].
    apply lowered_foldl. unfold lowerKey.
    by rewrite obj_lookup_set, String.eqb_refl.
Qed.

(** What [params[k]] is after the lower-casing, for a lower-case [k] other
    than [__proto__]: the value of a caller key that lower-cases to [k],
    when there is one. *)
Lemma lowerKeys_lookup l :
  Str.toLower l = l ->
  match obj_lookup l (lowerKeys params) with
  | Some v => exists k, (k, v) ∈ params /\ Str.toLower k = l
  | None =>
      l <> "__proto__" -> forall k, k ∈ keys params -> Str.toLower k <> l
  end.
Proof.
  intros Hl. unfold lowerKeys.
  pose proof (from_caller_foldl (keys params) params (fun _ H => H)
                from_caller_init) as [Hval _].
  destruct (obj_lookup l (foldl lowerKey params (keys params)))
    as [v|] eqn:Hv.
  - destruct (Hval l v Hv) as (k & Hin & Hk). exists k. split; [done|].
    by destruct Hk as [->|Hk].
  - intros Hproto k Hk Heq.
    pose proof (lowerKeys_covers (keys params) params k Hk) as Hsome.
    rewrite Heq, Hv in Hsome. by destruct Hsome.
Qed.
End LowerKeys.

(** The value [normalizeParams] gives to a declared parameter. *)
Lemma normalizeParam_value params p :
  let q := normalizeParam (lowerKeys params) p in
  let l := Str.toLower (TemplateParameter.ParameterKey p) in
  ParameterKey q = TemplateParameter.ParameterKey p
  /\ ((forall k, k ∈ keys params -> Str.toLower k <> l) ->
      l ∉ Object_prototype ->
      ParameterValue q = defaultValue p)
  /\ ((exists k, k ∈ keys params /\ Str.toLower k = l) ->
      l <> "__proto__" ->
      exists k v, (k, v) ∈ params /\ Str.toLower k = l
        /\ ParameterValue q = or_else v (defaultValue p)).
Proof.
  intros q l. subst q. unfold normalizeParam. cbn [ParameterKey ParameterValue].
  fold l. unfold obj_get.
  pose proof (lowerKeys_lookup params l (toLower_idemp _)) as Hl.
  destruct (obj_lookup l (lowerKeys params)) as [v|].
  - destruct Hl as (k & Hin & Hk). split_and!; [done| |by eauto].
    intros Hnone. destruct (Hnone k); [|done].
    apply list_elem_of_fmap. by exists (k, v).
  - split_and!; [done| |].
    + intros _ Hown. by rewrite (not_inherited _ Hown).
    + intros (k & Hin & Hk) Hproto. by destruct (Hl Hproto k).
Qed.

Lemma normalizeParams_nonempty cf templateObject params declared :
  params <> [] ->
  getTemplateSummary cf templateObject = Ok declared ->
  normalizeParams cf templateObject (PlainObject params)
  = (Ok (normalizeParam (lowerKeys params) <$> default [] declared),
     [CallGetTemplateSummary templateObject]).
Proof.
  intros Hne Hsum. unfold normalizeParams.
  destruct params as [|kv params]; [done|].
  cbn [keys fmap list_fmap length]. rewrite Hsum.
  by destruct (Z.leb_spec (Z.of_nat (S (length (list_fmap _ _ fst params)))) 0);
    [lia|].
Qed.

(** C8, as the specification states it, fails: for a caller that supplies
    no parameter, the list is empty, whatever the template declares. *)
Lemma no_caller_parameters_no_entries :
  getTemplateSummary Scenario.upToDate Scenario.template
    = Ok (Some [Scenario.envParameter; Scenario.regionParameter])
  /\ normalizeParams Scenario.upToDate Scenario.template (PlainObject [])
     = (Ok [], []).
Proof. split; reflexivity. Qed.

(** C8, amended.  For a caller that supplies no parameter the list is
    empty.  For a caller that supplies at least one, none of them under a
    spelling of [__proto__], the list has one entry per declared parameter,
    in the order of the declaration and under the declared key, and none
    for a key that is not declared.  The value of an entry is the declared
    default when no supplied key equals the declared one up to case and the
    declared key, in lower case, is not the name of a property of
    [Object.prototype]; when a supplied key equals the declared one up to
    case, it is the value of such a supplied key if that value is truthy,
    and the declared default if it is not. *)
Theorem normalized_parameters cf templateObject params declared :
  getTemplateSummary cf templateObject = Ok declared ->
  (forall k, k ∈ keys params -> Str.toLower k <> "__proto__") ->
  let templateParams := default [] declared in
  let out := (normalizeParams cf templateObject (PlainObject params)).1 in
  (params = [] -> out = Ok [])
  /\ (params <> [] ->
      exists result,
        out = Ok result
        /\ ParameterKey <$> result
           = TemplateParameter.ParameterKey <$> templateParams
        /\ forall i p, templateParams !! i = Some p ->
           let l := Str.toLower (TemplateParameter.ParameterKey p) in
           exists q,
             result !! i = Some q
             /\ ParameterKey q = TemplateParameter.ParameterKey p
             /\ ((forall k, k ∈ keys params -> Str.toLower k <> l) ->
                 l ∉ Object_prototype ->
                 ParameterValue q = defaultValue p)
             /\ ((exists k, k ∈ keys params /\ Str.toLower k = l) ->
                 exists k v, (k, v) ∈ params /\ Str.toLower k = l
                   /\ ParameterValue q = or_else v (defaultValue p))).
Proof.
  intros Hsum Hproto templateParams out. subst out. split.
  - by intros ->.
  - intros Hne. rewrite (normalizeParams_nonempty _ _ _ _ Hne Hsum).
    fold templateParams. cbn [fst]. eexists. split; [done|]. split.
    + rewrite <- list_fmap_compose. by apply list_fmap_ext.
    + intros i p Hp. cbv zeta.
      exists (normalizeParam (lowerKeys params) p). split.
      * by rewrite list_lookup_fmap, Hp.
      * destruct (normalizeParam_value params p) as (Hkey & Hnone & Hsome).
        split_and!; [done|done|].
        intros (k & Hk & Hl). apply Hsome; [by exists k|].
        rewrite <- Hl. by apply Hproto.
Qed.

(** The scenario of the specification: the caller supplies [Env] (and a
    key the template does not declare), the template declares [Env] and
    [Region]. *)
Example scenario_env_and_region :
  (normalizeParams Scenario.upToDate Scenario.template
     (PlainObject [("Env", VString "prod"); ("Stage", VString "blue")])).1
  = Ok [{| ParameterKey := "Env"; ParameterValue := VString "prod" |};
        {| ParameterKey := "Region"; ParameterValue := VString "us-east-1" |}].
Proof. reflexivity. Qed.

Lemma normalized_parameters_witness :
  exists result,
    (normalizeParams Scenario.upToDate Scenario.template
       (PlainObject [("ENV", VString "prod"); ("Stage", VString "blue")])).1
    = Ok result
    /\ ParameterKey <$> result = ["Env"; "Region"]
    /\ (exists q, result !! 0%nat = Some q
         /\ ParameterValue q = VString "prod")
    /\ (exists q, result !! 1%nat = Some q
         /\ ParameterValue q = VString "us-east-1").
Proof.
  assert (forall k, k ∈ keys [("ENV", VString "prod"); ("Stage", VString "blue")]
                    -> k = "ENV" \/ k = "Stage") as Hkeys0.
  { intros k. unfold keys. cbn [fmap list_fmap fst].
    rewrite !elem_of_cons.
    intros [->|[->|Hk]]; [by left|by right|by apply elem_of_nil in Hk]. }
  destruct (normalized_parameters Scenario.upToDate Scenario.template
              [("ENV", VString "prod"); ("Stage", VString "blue")]
              (Some [Scenario.envParameter; Scenario.regionParameter])
              eq_refl) as [_ Hsome].
  { intros k [->| ->]%Hkeys0; discriminate. }
  destruct Hsome as (result & Hout & Hkeys & Hvalues); [discriminate|].
  exists result. split; [exact Hout|]. split; [exact Hkeys|]. split.
  - destruct (Hvalues 0%nat Scenario.envParameter eq_refl)
      as (q & Hq & _ & _ & Hsupplied).
    exists q. split; [exact Hq|].
    destruct Hsupplied as (k & v & Hin & Hk & ->).
    { exists "ENV". split; [by left|reflexivity]. }
    apply elem_of_cons in Hin as [[= -> ->]|Hin]; [reflexivity|].
    apply list_elem_of_singleton in Hin as [= -> ->]. discriminate Hk.
  - destruct (Hvalues 1%nat Scenario.regionParameter eq_refl)
      as (q & Hq & _ & Hdefault & _).
    exists q. split; [exact Hq|]. apply Hdefault.
    + intros k [->| ->]%Hkeys0; discriminate.
    + rewrite <- inherited_spec. discriminate.
Defined.

(** What the amended statement leaves aside: for a declared parameter
    [Constructor] the caller supplies nothing, and the read of
    [params['constructor']] finds the inherited property, which is truthy;
    the entry carries it, not the declared default. *)
Example inherited_name_is_not_defaulted :
  (normalizeParams Example.declaresConstructor Scenario.template
     (PlainObject [("Env", VString "prod")])).1
  = Ok [{| ParameterKey := "Env"; ParameterValue := VString "prod" |};
        {| ParameterKey := "Constructor";
           ParameterValue := VInherited "constructor" |}].
Proof. reflexivity. Qed.





(** ** Cleanup *)

Section CleanupFacts.
Variable cf : ControlPlane.
Variable clock : nat -> Z.
Variable opts : CleanupOpts.

(** The test of the [.each] callback is the test for a candidate. *)
Lemma stale_qualifies t stack :
  stale clock opts t stack = true <-> qualifies clock opts (t, stack).
Proof.
  unfold stale, qualifies, ONE_MINUTE. cbn [fst snd].
  by rewrite andb_true_iff, Z.ltb_lt.
Qed.

Lemma candidates_cons t stack listed :
  candidates clock opts t (stack :: listed)
  = (if stale clock opts t stack then [stack] else [])
    ++ candidates clock opts (S t) listed.
Proof.
  unfold candidates. rewrite imap_cons, filter_cons.
  rewrite (imap_ext _ (fun i s => ((S t + i)%nat, s)))
    by (intros; cbn; f_equal; lia).
  replace (t + 0)%nat with t by lia.
  destruct (stale clock opts t stack) eqn:E.
  - by rewrite decide_True by by apply stale_qualifies.
  - rewrite decide_False; [done|].
    rewrite <- stale_qualifies. by rewrite E.
Qed.

Lemma candidates_app t listed1 listed2 :
  candidates clock opts t (listed1 ++ listed2)
  = candidates clock opts t listed1
    ++ candidates clock opts (t + length listed1) listed2.
Proof.
  revert t. induction listed1 as [|stack listed1 IH]; intros t.
  - cbn [app length]. by replace (t + 0)%nat with t by lia.
  - cbn [app length]. rewrite !candidates_cons, IH, <- app_assoc.
    by replace (S t + length listed1)%nat
      with (t + S (length listed1))%nat by lia.
Qed.

(** The [.each] over a page keeps the candidates of the page. *)
Lemma each_candidates t page stacks :
  each clock opts t page stacks
  = (stacks ++ candidates clock opts t page, (t + length page)%nat).
Proof.
  revert t stacks. induction page as [|stack page IH]; intros t stacks.
  - cbn [each length]. f_equal; [by rewrite app_nil_r|lia].
  - cbn [each length]. rewrite IH, candidates_cons.
    destruct (stale clock opts t stack); f_equal;
      try lia; by rewrite <- ?app_assoc.
Qed.


Lemma loop_no_deletes fuel t next stacks :
  deletes (loop cf clock opts fuel t next stacks).2 = [].
Proof.
  revert t next stacks. induction fuel as [|fuel IH]; intros t next stacks;
    [done|].
  simpl. destruct (listStacks cf next) as [data|err]; [|done].
  destruct (each clock opts t (Stacks.StackSummaries data) stacks)
    as [stacks' t1].
  destruct (truthy (Stacks.NextToken data)); [|done].
  specialize (IH t1 (Stacks.NextToken data) stacks').
  by destruct (loop cf clock opts fuel t1 (Stacks.NextToken data) stacks').
Qed.

Lemma deletes_app tr1 tr2 : deletes (tr1 ++ tr2) = deletes tr1 ++ deletes tr2.
Proof. apply omap_app. Qed.

Lemma deletes_cleanOne chosen :
  deletes (concat (cleanOne opts <$> chosen))
  = if dryRun opts then [] else Stacks.StackName <$> chosen.
Proof.
  induction chosen as [|stack chosen IH].
  - by destruct (dryRun opts).
  - cbn [fmap list_fmap concat]. rewrite deletes_app.
    change (list_fmap _ _ (cleanOne opts) chosen)
      with (cleanOne opts <$> chosen).
    rewrite IH. unfold cleanOne. by destruct (dryRun opts).
Qed.

End CleanupFacts.



(** The scenario of the specification: three matching stacks older than
    the threshold, created at 1 000 000, 2 000 000 and 3 000 000, listed
    newest first over two pages among stacks that do not qualify, and a
    limit of two. *)
Example scenario_three_stacks_limit_two :
  cleanup Scenario.withStacks Scenario.clock Scenario.oldestTwo 5
  = (Some (Ok ()),
     [CallListStacks None; CallListStacks (Some "n2");
      LogCleaningUp (Scenario.stack "test-a" 1000000);
      CallDeleteStack "test-a";
      LogCleaningUp (Scenario.stack "test-b" 2000000);
      CallDeleteStack "test-b"]).
Proof. reflexivity. Qed.


(** * Further properties *)

(** ** The pattern matcher *)

Lemma append_assoc (a b c : string) :
  String.append (String.append a b) c = String.append a (String.append b c).
Proof.
  induction a as [|x a IH]; [done|].
  change (String x (String.append (String.append a b) c)
          = String x (String.append a (String.append b c))).
  by f_equal.
Qed.

Lemma append_nil_r (a : string) : String.append a "" = a.
Proof.
  induction a as [|x a IH]; [done|].
  change (String x (String.append a "") = String x a). by f_equal.
Qed.

Lemma lang_cat r1 r2 s : lang (Regex.Cat r1 r2) s -> lang (Regex.cat r1 r2) s.
Proof.
  intros H. inversion H as [| | | | |? ? s1 s2 H1 H2| | | |]; subst.
  destruct r1, r2; simpl; try (by constructor); try (by inversion H1);
    try (by inversion H2);
    try (inversion H1; subst; simpl; done);
    try (inversion H2; subst; rewrite append_nil_r; done).
Qed.

Lemma lang_alt r1 r2 s : lang (Regex.Alt r1 r2) s -> lang (Regex.alt r1 r2) s.
Proof.
  intros H.
  inversion H; subst; destruct r1, r2; simpl;
    try (by constructor); try done;
    match goal with H : lang Regex.Void _ |- _ => inversion H end.
Qed.

Lemma lang_nullable r : lang r "" -> Regex.nullable r = true.
Proof.
  intros H. remember "" as s eqn:Hs. induction H; simpl; try done.
  - destruct s1; [|done]. simpl in Hs. subst. by rewrite IHlang1, IHlang2.
  - by rewrite IHlang.
  - rewrite IHlang; [|done]. apply orb_true_r.
Qed.

Lemma lang_deriv r c s : lang r (String c s) -> lang (Regex.deriv c r) s.
Proof.
  intros H. remember (String c s) as cs eqn:Hcs. revert c s Hcs.
  induction H; intros c0 s0 Hcs; simpl; simplify_eq.
  - rewrite Ascii.eqb_refl. constructor.
  - rewrite H. constructor.
  - rewrite H. constructor.
  - constructor.
  - apply lang_alt. destruct s1 as [|c1 s1]; cbn in Hcs.
    + subst. rewrite (lang_nullable _ H). apply lang_Alt_r. by apply IHlang2.
    + change (String c1 (String.append s1 s2) = String c0 s0) in Hcs.
      simplify_eq. apply lang_Alt_l, lang_cat. apply lang_Cat; [|done].
      by apply IHlang1.
  - apply lang_alt, lang_Alt_l. by apply IHlang.
  - apply lang_alt, lang_Alt_r. by apply IHlang.
  - destruct s1 as [|c1 s1]; cbn in Hcs.
    + by apply IHlang2.
    + change (String c1 (String.append s1 s2) = String c0 s0) in Hcs.
      simplify_eq. apply lang_cat. apply lang_Cat; [|done]. by apply IHlang1.
Qed.

(** The matcher accepts every word of the expression. *)
Lemma lang_matches r s : lang r s -> Regex.matches r s = true.
Proof.
  revert r. induction s as [|c s IH]; intros r H; simpl.
  - by apply lang_nullable.
  - by apply IH, lang_deriv.
Qed.

Lemma lang_lit s : lang (Regex.lit s) s.
Proof.
  induction s as [|c s IH]; simpl; [constructor|].
  change (String c s) with (String.append (String c "") s).
  by repeat constructor.
Qed.

Lemma lang_star_any s : lang (Regex.Star Regex.Any) s.
Proof.
  induction s as [|c s IH]; [constructor|].
  change (String c s) with (String.append (String c "") s).
  by repeat constructor.
Qed.

Lemma lang_star_dot s : one_line s = true -> lang (Regex.Star Regex.Dot) s.
Proof.
  induction s as [|c s IH]; simpl; [constructor|].
  rewrite andb_true_iff, negb_true_iff. intros [Hc Hs].
  change (String c s) with (String.append (String c "") s).
  constructor; [by constructor|by apply IH].
Qed.

Lemma lang_plus_dot s :
  s <> "" -> one_line s = true -> lang (Regex.plus Regex.Dot) s.
Proof.
  destruct s as [|c s]; [done|]. simpl.
  rewrite andb_true_iff, negb_true_iff. intros _ [Hc Hs].
  change (String c s) with (String.append (String c "") s).
  apply lang_Cat; [by constructor|by apply lang_star_dot].
Qed.

Lemma lang_one_space : lang (Regex.plus Regex.Space) " ".
Proof.
  change " " with (String.append " " "").
  apply lang_Cat; [by constructor|constructor].
Qed.

(** A word of the pattern anywhere in the text makes [test] succeed. *)
Lemma test_intro r pre mid post :
  lang r mid ->
  Regex.test r (String.append pre (String.append mid post)) = true.
Proof.
  intros H. apply lang_matches.
  apply lang_Cat; [apply lang_star_any|].
  apply lang_Cat; [done|apply lang_star_any].
Qed.

Lemma test_whole r s : lang r s -> Regex.test r s = true.
Proof.
  intros H. rewrite <- (append_nil_r s). by apply (test_intro r "" s "").
Qed.

Lemma lang_notExists subject :
  subject <> "" ->
  one_line subject = true ->
  lang Patterns.notExists
    (String.append "ValidationError: Stack "
       (String.append subject " does not exist")).
Proof.
  intros Hne Hline. unfold Patterns.notExists.
  change (String.append "ValidationError: Stack "
            (String.append subject " does not exist"))
    with (String.append "ValidationError:"
            (String.append " "
               (String.append "Stack"
                  (String.append " "
                     (String.append ""
                        (String.append subject
                           (String.append ""
                              (String.append " " "does not exist")))))))).
  apply lang_Cat; [apply lang_lit|].
  apply lang_Cat; [apply lang_one_space|].
  apply lang_Cat; [apply lang_lit|].
  apply lang_Cat; [apply lang_one_space|].
  apply lang_Cat; [apply lang_Alt_l; constructor|].
  apply lang_Cat; [by apply lang_plus_dot|].
  apply lang_Cat; [apply lang_Alt_l; constructor|].
  apply lang_Cat; [apply lang_one_space|apply lang_lit].
Qed.

Lemma one_line_app a b : one_line (String.append a b) = one_line a && one_line b.
Proof.
  induction a as [|c a IH]; [done|].
  change (one_line (String c (String.append a b))
          = one_line (String c a) && one_line b).
  simpl. by rewrite IH, andb_assoc.
Qed.

(** ** Errors of the fetch *)

(** X1.  The pattern [notExists] recognises the error texts
    "ValidationError: Stack <words> does not exist", whatever stands for
    the words (a stack name in brackets, "with id" and a name), as long as
    it is on one line and not empty, and whatever comes before and
    after. *)
Theorem notExists_recognised pre subject post :
  subject <> "" ->
  one_line subject = true ->
  Regex.test Patterns.notExists
    (String.append pre
       (String.append "ValidationError: Stack "
          (String.append subject
             (String.append " does not exist" post)))) = true.
Proof.
  intros Hne Hline.
  rewrite <- (append_assoc subject), <- (append_assoc "ValidationError: Stack ").
  by apply test_intro, lang_notExists.
Qed.

Lemma notExists_recognised_witness :
  Regex.test Patterns.notExists
    "ValidationError: Stack with id demo does not exist" = true.
Proof.
  apply (notExists_recognised "" "with id demo" "").
  - discriminate.
  - reflexivity.
Defined.

Section TickFacts.
Variable startedAt : Z.
Variable action name : string.

Lemma tick_failed describe fuel p err requests :
  running p = false ->
  getAllStackEvents startedAt describe fuel = (FetchFailed err, requests) ->
  outputNewStackEvents startedAt action name describe fuel p
  = (if Regex.test Patterns.notExists err then _success (start_running p)
     else if Regex.test Patterns.throttling err then
       _processEvents startedAt action name
         (log_text "AWS api calls are throttling" (start_running p)) []
     else _failure action name (Error err) (start_running p),
     requests).
Proof.
  intros Hr Hf. unfold outputNewStackEvents, catch. rewrite Hr, Hf.
  by repeat case_match.
Qed.

(** X2.  A tick whose fetch fails with an error that [notExists]
    recognises resolves a pending promise and clears the timer; no event is
    displayed or logged by it. *)
Theorem not_found_tick_resolves describe fuel p err requests :
  running p = false ->
  settled p = Pending ->
  getAllStackEvents startedAt describe fuel = (FetchFailed err, requests) ->
  Regex.test Patterns.notExists err = true ->
  let p' := (outputNewStackEvents startedAt action name describe fuel p).1 in
  settled p' = Resolved /\ ticking p' = false
  /\ displayedEvents p' = displayedEvents p /\ logged p' = logged p.
Proof.
  intros Hr Hp Hf Hne p'. subst p'.
  rewrite (tick_failed _ _ _ _ _ Hr Hf), Hne. cbn [fst]. simpl.
  by rewrite Hp.
Qed.

(** X3.  A tick whose fetch fails with a throttling error (and not a not
    found one) is passed over: the promise, the timer and the displayed
    events stay as they were, one line is logged, and the next tick is free
    to run. *)
Theorem throttled_tick_is_passed_over describe fuel p err requests :
  running p = false ->
  getAllStackEvents startedAt describe fuel = (FetchFailed err, requests) ->
  Regex.test Patterns.notExists err = false ->
  Regex.test Patterns.throttling err = true ->
  let p' := (outputNewStackEvents startedAt action name describe fuel p).1 in
  settled p' = settled p /\ ticking p' = ticking p
  /\ displayedEvents p' = displayedEvents p
  /\ running p' = false
  /\ logged p' = logged p ++ [LogText "AWS api calls are throttling"].
Proof.
  intros Hr Hf Hne Hth p'. subst p'.
  by rewrite (tick_failed _ _ _ _ _ Hr Hf), Hne, Hth.
Qed.

(** X4.  A tick whose fetch fails with any other error rejects a pending
    promise with the message "<name> <ACTION> Failed: <error>" and clears
    the timer. *)
Theorem failed_fetch_rejects describe fuel p err requests :
  running p = false ->
  settled p = Pending ->
  getAllStackEvents startedAt describe fuel = (FetchFailed err, requests) ->
  Regex.test Patterns.notExists err = false ->
  Regex.test Patterns.throttling err = false ->
  let p' := (outputNewStackEvents startedAt action name describe fuel p).1 in
  settled p' =
    Rejected (String.append name
                (String.append " "
                   (String.append (Str.toUpperCase action)
                      (String.append " Failed: " err))))
  /\ ticking p' = false.
Proof.
  intros Hr Hp Hf Hne Hth p'. subst p'.
  rewrite (tick_failed _ _ _ _ _ Hr Hf), Hne, Hth. cbn [fst]. simpl.
  rewrite Hp. simpl. split; [|done]. f_equal. unfold logPrefix.
  by rewrite !append_assoc.
Qed.

(** *** Promise and timer *)

Lemma decide_last_settled_once o p :
  settled p <> Pending ->
  settled (decide_last startedAt action name o p) = settled p.
Proof.
  intros Hp. destruct o as [e|]; [|done]. simpl.
  repeat case_match; simpl; try done; by destruct (settled p).
Qed.

Lemma processEvents_settled_once p events :
  settled p <> Pending ->
  settled (_processEvents startedAt action name p events) = settled p.
Proof.
  intros Hp. unfold _processEvents. cbv zeta.
  pose proof (forEach_frame startedAt p (sortBy Timestamp events))
    as (Hs & _).
  destruct (forEach startedAt p (sortBy Timestamp events)) as [q|err q];
    cbn [after] in *; [|done].
  cbn [stop_running settled].
  rewrite decide_last_settled_once; [done|by rewrite Hs].
Qed.

Lemma catch_settled_once err events p :
  settled p <> Pending ->
  settled (catch startedAt action name err events p) = settled p.
Proof.
  intros Hp. unfold catch. repeat case_match.
  - simpl. by destruct (settled p).
  - by rewrite processEvents_settled_once.
  - simpl. by destruct (settled p).
Qed.

Lemma tick_settled_once describe fuel p :
  settled p <> Pending ->
  settled (outputNewStackEvents startedAt action name describe fuel p).1
  = settled p.
Proof.
  intros Hp. unfold outputNewStackEvents. destruct (running p); [done|].
  destruct (getAllStackEvents startedAt describe fuel)
    as [[all|err|] reqs]; cbv zeta; cbn [fst].
  - pose proof (processEvents_settled_once (stop_running (start_running p))
                  (newEvents (stop_running (start_running p)) all) Hp) as Hs.
    destruct (_processEvents _ _ _ _ _) as [q|err q]; cbn [fst after] in *;
      [done|].
    rewrite catch_settled_once; [done|]. by rewrite Hs.
  - by rewrite catch_settled_once.
  - done.
Qed.

(** X5.  A promise settles once: after it has been resolved or rejected, no
    tick changes how it is settled, whatever the control plane returns. *)
Theorem settled_once p q :
  settled p <> Pending ->
  rtc (tick_step startedAt action name) p q ->
  settled q = settled p.
Proof.
  intros Hp Hsteps. induction Hsteps as [p|p q r Hstep _ IH]; [done|].
  destruct Hstep as (describe & fuel & ->).
  pose proof (tick_settled_once describe fuel p Hp) as Hq.
  rewrite <- Hq. apply IH. by rewrite Hq.
Qed.

Lemma decide_last_timer o p :
  timer_matches_promise p ->
  timer_matches_promise (decide_last startedAt action name o p).
Proof.
  unfold timer_matches_promise. intros Hp. destruct o as [e|]; [|done].
  simpl. repeat case_match; simpl; try done;
    destruct (settled p); simpl; split; try done; intros ?; by apply Hp.
Qed.

Lemma processEvents_timer p events :
  timer_matches_promise p ->
  timer_matches_promise (_processEvents startedAt action name p events).
Proof.
  intros Hp. unfold _processEvents. cbv zeta.
  pose proof (forEach_frame startedAt p (sortBy Timestamp events))
    as (Hs & Ht & _).
  destruct (forEach startedAt p (sortBy Timestamp events)) as [q|err q];
    cbn [after] in *.
  - apply (decide_last_timer (last (sortBy Timestamp events)) q).
    unfold timer_matches_promise. by rewrite Hs, Ht.
  - unfold timer_matches_promise. by rewrite Hs, Ht.
Qed.

Lemma catch_timer err events p :
  timer_matches_promise p ->
  timer_matches_promise (catch startedAt action name err events p).
Proof.
  intros Hp. unfold catch. repeat case_match.
  - unfold timer_matches_promise in *. simpl.
    destruct (settled p); simpl; split; try done; intros ?; by apply Hp.
  - by apply processEvents_timer.
  - unfold timer_matches_promise in *. simpl.
    destruct (settled p); simpl; split; try done; intros ?; by apply Hp.
Qed.

Lemma tick_timer describe fuel p :
  timer_matches_promise p ->
  timer_matches_promise
    (outputNewStackEvents startedAt action name describe fuel p).1.
Proof.
  intros Hp. unfold outputNewStackEvents. destruct (running p); [done|].
  destruct (getAllStackEvents startedAt describe fuel)
    as [[all|err|] reqs]; cbv zeta; cbn [fst].
  - pose proof (processEvents_timer (stop_running (start_running p))
                  (newEvents (stop_running (start_running p)) all) Hp) as Hq.
    destruct (_processEvents _ _ _ _ _) as [q|err q]; cbn [fst after] in *;
      [done|].
    by apply catch_timer.
  - by apply catch_timer.
  - done.
Qed.

Lemma tick_steps_timer p q :
  timer_matches_promise p ->
  rtc (tick_step startedAt action name) p q ->
  timer_matches_promise q.
Proof.
  intros Hp Hsteps. induction Hsteps as [p|p q r Hstep _ IH]; [done|].
  apply IH. destruct Hstep as (describe & fuel & ->). by apply tick_timer.
Qed.

(** X6.  In every state a poller reaches, the timer runs if and only if the
    promise is pending: the timer is cleared when the promise settles and
    not before. *)
Theorem timer_runs_while_pending q :
  rtc (tick_step startedAt action name) newPoller q ->
  (ticking q = true <-> settled q = Pending).
Proof. by apply tick_steps_timer. Qed.
End TickFacts.

Lemma not_found_tick_resolves_witness :
  let p' := (outputNewStackEvents 100 "delete" "demo"
               (describeStackEvents Example.gone "demo" 0%nat) 5 newPoller).1 in
  settled p' = Resolved /\ ticking p' = false
  /\ displayedEvents p' = displayedEvents newPoller
  /\ logged p' = logged newPoller.
Proof.
  apply (not_found_tick_resolves 100 "delete" "demo"
           (describeStackEvents Example.gone "demo" 0%nat) 5 newPoller
           "ValidationError: Stack [demo] does not exist" [None]);
    reflexivity.
Defined.

Lemma throttled_tick_is_passed_over_witness :
  let p' := (outputNewStackEvents 100 "delete" "demo"
               (Example.throttledOnce 0) 5 newPoller).1 in
  settled p' = Pending /\ ticking p' = true
  /\ displayedEvents p' = ∅
  /\ running p' = false
  /\ logged p' = [LogText "AWS api calls are throttling"].
Proof.
  apply (throttled_tick_is_passed_over 100 "delete" "demo"
           (Example.throttledOnce 0) 5 newPoller
           "Throttling: Rate exceeded" [None]);
    reflexivity.
Defined.

Lemma failed_fetch_rejects_witness :
  let p' := (outputNewStackEvents 100 "update" "demo"
               (describeStackEvents Scenario.upToDateUnreadable "demo" 0%nat)
               5 newPoller).1 in
  settled p' =
    Rejected "demo UPDATE Failed: AccessDenied: not authorized to perform DescribeStackEvents"
  /\ ticking p' = false.
Proof.
  apply (failed_fetch_rejects 100 "update" "demo"
           (describeStackEvents Scenario.upToDateUnreadable "demo" 0%nat)
           5 newPoller
           "AccessDenied: not authorized to perform DescribeStackEvents"
           [None]);
    reflexivity.
Defined.

Lemma settled_once_witness :
  let p := (outputNewStackEvents 100 "delete" "demo"
              (Example.throttledOnce 1) 5 newPoller).1 in
  let q := (outputNewStackEvents 100 "delete" "demo"
              (describeStackEvents Scenario.upToDateUnreadable "demo" 0%nat)
              5 p).1 in
  settled p = Resolved /\ settled q = Resolved.
Proof.
  intros p q. split; [reflexivity|].
  rewrite (settled_once 100 "delete" "demo" p q); [reflexivity|discriminate|].
  apply rtc_once. by eexists _, _.
Defined.

Lemma timer_runs_while_pending_witness :
  let q := (outputNewStackEvents 100 "delete" "demo"
              (Example.throttledOnce 1) 5 newPoller).1 in
  ticking q = true <-> settled q = Pending.
Proof.
  intros q. apply (timer_runs_while_pending 100 "delete" "demo").
  apply rtc_once. by eexists _, _.
Defined.

(** ** The timer *)

Lemma run_stopped startedAt action name world fuel ticks i p :
  ticking p = false ->
  run startedAt action name world fuel ticks i p = (p, []).
Proof. intros Hp. destruct ticks; simpl; [done|]. by rewrite Hp. Qed.

(** X7.  Once the promise has settled within some number of firings of the
    timer, following more firings changes nothing: the poller and the list
    of requests are the same, so no request is issued after the
    settlement. *)
Theorem no_tick_after_settlement
    startedAt action name world fuel ticks more :
  settled (checkStack startedAt action name world fuel ticks).1 <> Pending ->
  checkStack startedAt action name world fuel (ticks + more)
  = checkStack startedAt action name world fuel ticks.
Proof.
  unfold checkStack.
  assert (timer_matches_promise newPoller) as Hnew by done.
  revert Hnew. generalize newPoller, 0%nat.
  induction ticks as [|ticks IH]; intros p i Hp Hset.
  - simpl in *. apply run_stopped.
    destruct (ticking p) eqn:Ht; [|done]. by apply Hp in Ht.
  - simpl in *. destruct (ticking p); [|done].
    pose proof (tick_timer startedAt action name (world i) fuel p Hp) as Hp'.
    destruct (outputNewStackEvents startedAt action name (world i) fuel p)
      as [p' requests].
    specialize (IH p' (S i) Hp').
    destruct (run startedAt action name world fuel ticks (S i) p')
      as [p'' requests'].
    by rewrite IH.
Qed.

Lemma no_tick_after_settlement_witness :
  checkStack 100 "delete" "demo" Example.throttledOnce 5 (2 + 7)
  = checkStack 100 "delete" "demo" Example.throttledOnce 5 2.
Proof.
  apply (no_tick_after_settlement 100 "delete" "demo" Example.throttledOnce
           5 2 7).
  vm_compute. discriminate.
Defined.

(** ** The progress log *)

Lemma ascending_filter {A} (key : A -> Z) (P : A -> Prop)
    `{!forall x, Decision (P x)} l :
  ascending key l -> ascending key (filter P l).
Proof.
  unfold ascending. induction 1 as [|x l Hs IH Hx]; [constructor|].
  rewrite filter_cons. destruct (decide (P x)); [|done].
  constructor; [done|].
  rewrite Forall_forall in Hx |- *.
  intros y [_ Hy]%list_elem_of_filter. by apply Hx.
Qed.

Lemma foldl_display_logged startedAt p l :
  logged (foldl (show startedAt) p l)
  = logged p
    ++ (LogEvent <$> filter (fun e => startedAt <= Timestamp e) l).
Proof.
  revert p. induction l as [|e l IH]; intros p.
  - by rewrite app_nil_r.
  - cbn [foldl]. rewrite IH, filter_cons. unfold show.
    destruct (Z.leb_spec startedAt (Timestamp e));
      destruct (decide (startedAt <= Timestamp e)); try lia.
    + cbn [log_event mark logged fmap list_fmap]. by rewrite <- app_assoc.
    + done.
Qed.

Lemma decide_last_logged startedAt action name o p :
  logged (decide_last startedAt action name o p) = logged p.
Proof.
  destruct o as [e|]; [|done]. simpl. by repeat case_match.
Qed.

(** The lines of a batch, whether it is gone through to its end or not. *)
Lemma processEvents_logged startedAt action name p events :
  exists shown rest,
    logged (_processEvents startedAt action name p events)
    = logged p ++ (LogEvent <$> shown)
    /\ shown ++ rest
       = filter (fun e => startedAt <= Timestamp e) (sortBy Timestamp events)
    /\ Forall (fun e => is_Some (color (ResourceStatus e))) shown
    /\ match rest with
       | [] => True
       | e :: _ => color (ResourceStatus e) = None
       end.
Proof.
  unfold _processEvents. cbv zeta.
  destruct (forEach_cases startedAt p (sortBy Timestamp events))
    as [[Hq ->]|(front & e & back & Hl & Hq & He & ->)].
  - exists (filter (fun e => startedAt <= Timestamp e)
              (sortBy Timestamp events)), [].
    cbn [after stop_running logged].
    rewrite decide_last_logged, foldl_display_logged, app_nil_r.
    split_and!; [done..| |done].
    apply Forall_forall. intros e [Hfresh He]%list_elem_of_filter.
    rewrite Forall_forall in Hq. specialize (Hq e He).
    by apply throws_spec in Hq.
  - apply andb_true_iff in He as [Hfresh Hcolor]. apply Z.leb_le in Hfresh.
    exists (filter (fun e => startedAt <= Timestamp e) front),
           (e :: filter (fun e => startedAt <= Timestamp e) back).
    cbn [after mark logged].
    rewrite foldl_display_logged, Hl, filter_app, filter_cons.
    rewrite decide_True by done.
    split_and!; [done..| |].
    + apply Forall_forall. intros x [Hx Hin]%list_elem_of_filter.
      rewrite Forall_forall in Hq. specialize (Hq x Hin).
      by apply throws_spec in Hq.
    + apply negb_true_iff, bool_decide_eq_false in Hcolor.
      destruct (color (ResourceStatus e)) as [c|]; [|done].
      destruct Hcolor. by exists c.
Qed.

(** X8.  The lines a batch adds to the progress log are lines of events of
    the batch from [startedAt] on, in ascending order of their timestamps;
    an event from before [startedAt] is never logged.  The events of the
    batch from [startedAt] on, taken in that order (each once for each time
    it is in the batch), are logged up to the first whose status [colorMap]
    does not list: that one and those after it have no line.  So when
    [colorMap] lists the status of every such event, each of them is
    logged. *)
Theorem progress_log_is_ordered startedAt action name p events :
  exists shown rest,
    logged (_processEvents startedAt action name p events)
    = logged p ++ (LogEvent <$> shown)
    /\ shown ++ rest ≡ₚ filter (fun e => startedAt <= Timestamp e) events
    /\ ascending Timestamp (shown ++ rest)
    /\ Forall (fun e => is_Some (color (ResourceStatus e))) shown
    /\ match rest with
       | [] => True
       | e :: _ => color (ResourceStatus e) = None
       end
    /\ ((forall e, e ∈ events -> startedAt <= Timestamp e ->
           is_Some (color (ResourceStatus e))) ->
        rest = []).
Proof.
  destruct (processEvents_logged startedAt action name p events)
    as (shown & rest & Hlog & Hsplit & Hshown & Hrest).
  exists shown, rest.
  assert (shown ++ rest
          ≡ₚ filter (fun e => startedAt <= Timestamp e) events) as Hperm.
  { rewrite Hsplit. apply filter_Permutation, sortBy_Permutation. }
  split_and!; [done..| | | |].
  - rewrite Hsplit. apply ascending_filter, sortBy_ascending.
  - done.
  - done.
  - intros Hlisted. destruct rest as [|e rest]; [done|].
    assert (e ∈ filter (fun e => startedAt <= Timestamp e) events) as He.
    { rewrite <- Hperm. apply elem_of_app. right. by left. }
    apply list_elem_of_filter in He as [Hfresh He].
    destruct (Hlisted e He Hfresh) as [c Hc]. by rewrite Hrest in Hc.
Qed.

(** ** The fetch *)

Section FetchFacts.
Variable startedAt : Z.
Variable describe : option string -> result EventsPage.

Lemma getStackEvents_fetched fuel next allEvents all requests :
  getStackEvents startedAt describe fuel next allEvents
    = (Fetched all, requests) ->
  all = allEvents ++ concat (page_events describe <$> requests)
  /\ exists front final,
       requests = front ++ [final]
       /\ head requests = Some next
       /\ Forall (fun token =>
                    (exists data, describe token = Ok data)
                    /\ Forall (fun event => startedAt <= Timestamp event)
                              (page_events describe token)) front
       /\ exists data, describe final = Ok data.
Proof.
  revert next allEvents all requests.
  induction fuel as [|fuel IH]; intros next allEvents all requests Hget;
    [done|].
  cbn [getStackEvents] in Hget.
  destruct (describe next) as [data|err] eqn:Hnext; [|done].
  assert (page_events describe next = StackEvents data) as Hpage
    by (unfold page_events; by rewrite Hnext).
  destruct (morePages startedAt data) eqn:Hmore.
  - destruct (getStackEvents startedAt describe fuel (NextToken data)
                (allEvents ++ StackEvents data)) as [r reqs] eqn:Hrec.
    simplify_eq.
    destruct (IH _ _ _ _ Hrec)
      as (-> & front & final & -> & _ & Hfront & Hfinal).
    split.
    + cbn [fmap list_fmap concat]. rewrite Hpage.
      by rewrite <- app_assoc.
    + exists (next :: front), final. split_and!; [done|done| |done].
      constructor; [|done]. split; [by eauto|].
      rewrite Hpage. by apply morePages_spec in Hmore as [_ ?].
  - simplify_eq. split.
    + cbn [fmap list_fmap concat]. by rewrite Hpage, app_nil_r.
    + exists [], next. split_and!; [done|done|constructor|by eauto].
Qed.

(** X9.  When a fetch succeeds, its events are those of the pages
    requested, in the order of the requests, none dropped and none added;
    the first request is for the newest page, and every page but the last
    requested one holds only events from [startedAt] on. *)
Theorem fetch_returns_the_pages_in_order fuel allEvents requests :
  getAllStackEvents startedAt describe fuel = (Fetched allEvents, requests) ->
  allEvents = concat (page_events describe <$> requests)
  /\ exists front final,
       requests = front ++ [final]
       /\ head requests = Some None
       /\ Forall (fun token =>
                    Forall (fun event => startedAt <= Timestamp event)
                           (page_events describe token)) front.
Proof.
  intros Hget. apply getStackEvents_fetched in Hget
    as (-> & front & final & -> & Hhead & Hfront & _).
  split; [done|]. exists front, final. split_and!; [done..|].
  eapply Forall_impl; [exact Hfront|]. by intros token [_ ?].
Qed.

Lemma getStackEvents_log pages :
  forall fuel next allEvents,
    log_from startedAt describe next pages ->
    (length pages <= fuel)%nat ->
    getStackEvents startedAt describe fuel next allEvents
    = (Fetched (allEvents ++ concat (StackEvents <$> pages)),
       next :: (NextToken <$> take (length pages - 1) pages)).
Proof.
  induction pages as [|page pages IH]; intros fuel next allEvents Hlog Hfuel;
    [done|].
  destruct fuel as [|fuel]; [cbn [length] in Hfuel; lia|].
  destruct Hlog as [Hpage Hrest].
  cbn [getStackEvents]. rewrite Hpage.
  destruct pages as [|page' pages'].
  - assert (morePages startedAt page = false) as ->.
    { apply not_true_is_false. rewrite morePages_spec.
      intros [(token & Htoken & Hne) Hall].
      destruct Hrest as [[Hnone|Hempty]|(event & Hin & Hold)].
      - by rewrite Htoken in Hnone.
      - rewrite Htoken in Hempty. by simplify_eq.
      - rewrite Forall_forall in Hall. specialize (Hall event Hin). lia. }
    cbn [fmap list_fmap concat length Nat.sub take]. by rewrite app_nil_r.
  - destruct Hrest as (Htoken & Hfresh & Hrest).
    assert (morePages startedAt page = true) as ->
      by by apply morePages_spec.
    rewrite (IH fuel (NextToken page) (allEvents ++ StackEvents page) Hrest)
      by (cbn [length] in *; lia).
    cbn [fmap list_fmap concat length Nat.sub take].
    by rewrite <- app_assoc, Nat.sub_0_r.
Qed.

(** X10.  Take the pages that a fetch has to read: the newest page, then
    the page behind the token of each page that carries a token and only
    events from [startedAt] on, up to the first page that carries no token
    or an event from before [startedAt]; and let no request for them fail.
    A fetch that may issue as many requests as there are such pages, or
    more, succeeds: it asks for exactly these pages, in this order, and
    returns their events. *)
Theorem fetch_ends pages fuel :
  log_from startedAt describe None pages ->
  (length pages <= fuel)%nat ->
  getAllStackEvents startedAt describe fuel
  = (Fetched (concat (StackEvents <$> pages)),
     None :: (NextToken <$> take (length pages - 1) pages)).
Proof. intros Hlog Hfuel. by apply (getStackEvents_log pages fuel None []). Qed.
End FetchFacts.

Lemma fetch_returns_the_pages_in_order_witness :
  StackEvents Scenario.page1 ++ StackEvents Scenario.page2
  = concat (page_events Scenario.threePages <$> [None; Some "t2"]).
Proof.
  by destruct (fetch_returns_the_pages_in_order 100 Scenario.threePages 5
                 (StackEvents Scenario.page1 ++ StackEvents Scenario.page2)
                 [None; Some "t2"] eq_refl) as [-> _].
Defined.

Lemma fetch_ends_witness :
  getAllStackEvents 100 Scenario.threePages 9
  = (Fetched (StackEvents Scenario.page1 ++ StackEvents Scenario.page2),
     [None; Some "t2"]).
Proof.
  apply (fetch_ends 100 Scenario.threePages
           [Scenario.page1; Scenario.page2] 9).
  - split; [reflexivity|]. split; [by exists "t2"|].
    split; [repeat constructor; simpl; lia|].
    split; [reflexivity|]. right.
    exists (Scenario.stackEvent "e2" "UPDATE_COMPLETE" 50).
    split; [right; left|simpl; lia].
  - cbn [length]. lia.
Defined.

(** ** The stack call *)

Lemma processStack_rejected_call
    cf async capabilities tags action name templateObject cfParams now
    fuel ticks noramlizedParams tr err tr' :
  normalizeParams cf templateObject cfParams = (Ok noramlizedParams, tr) ->
  processCfStack cf action
    {| StackName := name; Capabilities := capabilities;
       Parameters := noramlizedParams; Tags := tags;
       Template := templateObject |} = (Err err, tr') ->
  processStack cf async capabilities tags action name (Ok templateObject)
               cfParams now fuel ticks
  = (Rejected err, tr ++ tr').
Proof. intros Hnorm Hcf. unfold processStack. by rewrite Hnorm, Hcf. Qed.

(** X11.  When the create call rejects, or the update call rejects with
    an error other than "No updates are to be performed", the operation is
    rejected with that error, in either mode, and the event log is never
    polled. *)
Theorem rejected_stack_call_is_not_polled
    cf async capabilities tags action name templateObject cfParams now
    fuel ticks noramlizedParams tr err :
  normalizeParams cf templateObject cfParams = (Ok noramlizedParams, tr) ->
  let cfparms :=
    {| StackName := name; Capabilities := capabilities;
       Parameters := noramlizedParams; Tags := tags;
       Template := templateObject |} in
  (action = "update" /\ updateStack cf cfparms = Err err
   /\ Patterns.noUpdates err = false)
  \/ (action <> "update" /\ createStack cf cfparms = Err err) ->
  let out :=
    processStack cf async capabilities tags action name (Ok templateObject)
                 cfParams now fuel ticks in
  out.1 = Rejected err
  /\ existsb is_poll out.2 = false
  /\ out.2 = tr ++ [if String.eqb action "update"
                    then CallUpdateStack cfparms
                    else CallCreateStack cfparms].
Proof.
  intros Hnorm cfparms Hcall out.
  assert (processCfStack cf action cfparms
          = (Err err, [if String.eqb action "update"
                       then CallUpdateStack cfparms
                       else CallCreateStack cfparms])) as Hcf.
  { unfold processCfStack.
    destruct Hcall as [(-> & -> & ->)|(Hne & ->)]; [done|].
    apply String.eqb_neq in Hne. by rewrite Hne. }
  subst out.
  rewrite (processStack_rejected_call _ _ _ _ _ _ _ _ _ _ _ _ _ _ _
             Hnorm Hcf).
  cbn [fst snd]. split_and!; [done| |done].
  rewrite existsb_app.
  replace tr with (normalizeParams cf templateObject cfParams).2
    by by rewrite Hnorm.
  rewrite normalizeParams_no_poll. by destruct (String.eqb action "update").
Qed.

Lemma rejected_stack_call_is_not_polled_witness :
  let out :=
    processStack Example.refusing false Scenario.capabilities [] "update"
      "demo" (Ok Scenario.template) (PlainObject [("Env", VString "prod")])
      100 5 10 in
  out.1 = Rejected "ValidationError: Template format error"
  /\ existsb is_poll out.2 = false.
Proof.
  intros out.
  destruct (rejected_stack_call_is_not_polled Example.refusing false
              Scenario.capabilities [] "update" "demo" Scenario.template
              (PlainObject [("Env", VString "prod")]) 100 5 10
              [{| ParameterKey := "Env"; ParameterValue := VString "prod" |};
               {| ParameterKey := "Region";
                  ParameterValue := VString "us-east-1" |}]
              [CallGetTemplateSummary Scenario.template]
              "ValidationError: Template format error" eq_refl)
    as (Hout & Hpoll & _).
  - left. by split_and!.
  - by split.
Defined.

(** X12.  When the caller supplies parameters and the declared parameters
    of the template cannot be fetched, the operation is rejected with that
    error and neither a create nor an update call is issued. *)
Theorem summary_failure_stops_the_operation
    cf async capabilities tags action name templateObject params now
    fuel ticks err :
  params <> [] ->
  getTemplateSummary cf templateObject = Err err ->
  processStack cf async capabilities tags action name (Ok templateObject)
               (PlainObject params) now fuel ticks
  = (Rejected err, [CallGetTemplateSummary templateObject]).
Proof.
  intros Hne Hsum. unfold processStack, normalizeParams.
  destruct params as [|kv params]; [done|].
  cbn [keys fmap list_fmap length]. rewrite Hsum.
  by destruct (Z.leb_spec (Z.of_nat (S (length (list_fmap _ _ fst params))))
                 0); [lia|].
Qed.

(** ** Keys that differ in case *)

Lemma obj_get_define k k' v o :
  obj_get k (obj_define k' v o) = if String.eqb k k' then v else obj_get k o.
Proof.
  unfold obj_get. rewrite obj_lookup_define. by destruct (String.eqb k k').
Qed.

(** A step for a key that does not lower-case to [l], or that is [l]
    itself, leaves [params[l]] as it is. *)
Lemma lowerKey_unchanged o k l :
  (Str.toLower k = l -> k = l) -> obj_get l (lowerKey o k) = obj_get l o.
Proof.
  intros Hk. unfold lowerKey.
  destruct (obj_set_cases (Str.toLower k) (obj_get k o) o) as [->| ->];
    [done|].
  rewrite obj_get_define.
  destruct (String.eqb l (Str.toLower k)) eqn:E; [|done].
  apply String.eqb_eq in E. by rewrite (Hk (eq_sym E)).
Qed.

Lemma foldl_lowerKey_unchanged ks o l :
  (forall k, k ∈ ks -> Str.toLower k = l -> k = l) ->
  obj_get l (foldl lowerKey o ks) = obj_get l o.
Proof.
  revert o. induction ks as [|k ks IH]; intros o Hks; [done|].
  cbn [foldl]. rewrite IH.
  - apply lowerKey_unchanged, Hks. by left.
  - intros k' Hk'. apply Hks. by right.
Qed.

(** A key that is not all lower-case is never written to. *)
Lemma foldl_lowerKey_mixed ks o k :
  Str.toLower k <> k -> obj_get k (foldl lowerKey o ks) = obj_get k o.
Proof.
  intros Hk. apply foldl_lowerKey_unchanged. intros k' _ Hk'.
  destruct Hk. by rewrite <- Hk', toLower_idemp.
Qed.

Lemma obj_set_own k v o :
  is_Some (obj_lookup k o) -> obj_set k v o = obj_define k v o.
Proof.
  intros Hown. unfold obj_set.
  by rewrite (bool_decide_eq_true_2 _ Hown), andb_false_r.
Qed.

Lemma obj_lookup_None k o : k ∉ keys o -> obj_lookup k o = None.
Proof.
  intros Hk. destruct (obj_lookup k o) as [v|] eqn:Hv; [|done].
  destruct Hk. apply list_elem_of_fmap. exists (k, v).
  split; [done|by apply obj_lookup_Some].
Qed.

(** An object without a property [__proto__] of its own gets none. *)
Lemma foldl_lowerKey_proto ks o :
  obj_lookup "__proto__" o = None ->
  obj_lookup "__proto__" (foldl lowerKey o ks) = None.
Proof.
  revert o. induction ks as [|k ks IH]; intros o Ho; [done|].
  cbn [foldl]. apply IH. unfold lowerKey, obj_set.
  destruct (String.eqb_spec (Str.toLower k) "__proto__") as [->|Hne].
  - by rewrite Ho.
  - cbn [andb]. rewrite obj_lookup_define, String.eqb_sym.
    by apply String.eqb_neq in Hne as ->.
Qed.

(** A supplied key that is a spelling of [__proto__] is not copied: the
    assignment under [__proto__] adds no property, and the read finds what
    the object inherits. *)
Lemma proto_spelling_is_not_copied :
  let params := [("__PROTO__", VString "x")] in
  Str.toLower "__PROTO__" = "__proto__"
  /\ lowerKeys params = params
  /\ obj_get "__PROTO__" params = VString "x"
  /\ obj_get "__proto__" (lowerKeys params) = VInherited "__proto__".
Proof. repeat split. Qed.

(** X13.  After the lower-casing of the caller's keys, the value under a
    lower-case key [l] is that of the last supplied key that lower-cases to
    [l] and is not [l] itself; the value the caller gave under [l] itself
    stays only when no other spelling is supplied.  (So of [env] and [ENV]
    the value of [ENV] is used, in whichever order they are supplied.)  One
    key is apart: a spelling of [__proto__] is copied only when the caller's
    object has a property [__proto__] of its own; when it has not, the read
    under [__proto__] finds what the object inherits. *)
Theorem last_other_spelling_wins params :
  (forall front k back,
     keys params = front ++ k :: back ->
     Str.toLower k <> k ->
     (forall k', k' ∈ back -> Str.toLower k' = Str.toLower k ->
                 k' = Str.toLower k) ->
     obj_get (Str.toLower k) (lowerKeys params)
     = if decide (Str.toLower k = "__proto__" /\ "__proto__" ∉ keys params)
       then VInherited "__proto__"
       else obj_get k params)
  /\ (forall l,
       (forall k, k ∈ keys params -> Str.toLower k = l -> k = l) ->
       obj_get l (lowerKeys params) = obj_get l params).
Proof.
  split.
  - intros front k back Hkeys Hk Hback.
    destruct (decide (Str.toLower k = "__proto__" /\ "__proto__" ∉ keys params))
      as [[-> Hown]|Hcopy].
    + unfold lowerKeys, obj_get.
      by rewrite foldl_lowerKey_proto by by apply obj_lookup_None.
    + unfold lowerKeys. rewrite Hkeys, foldl_app. cbn [foldl].
      rewrite foldl_lowerKey_unchanged by done.
      unfold lowerKey at 1.
      assert (obj_set (Str.toLower k) (obj_get k (foldl lowerKey params front))
                (foldl lowerKey params front)
              = obj_define (Str.toLower k)
                  (obj_get k (foldl lowerKey params front))
                  (foldl lowerKey params front)) as ->.
      { destruct (decide (Str.toLower k = "__proto__")) as [Hproto|Hproto];
          [|by apply obj_set_define].
        apply obj_set_own, lowered_foldl, obj_lookup_is_Some.
        rewrite Hproto. apply dec_stable. tauto. }
      rewrite obj_get_define, String.eqb_refl.
      by apply foldl_lowerKey_mixed.
  - intros l Hl. unfold lowerKeys. by apply foldl_lowerKey_unchanged.
Qed.

Lemma last_other_spelling_wins_witness :
  obj_get "env"
    (lowerKeys [("env", VString "a"); ("ENV", VString "b")])
  = VString "b"
  /\ obj_get "env"
       (lowerKeys [("ENV", VString "b"); ("env", VString "a")])
     = VString "b".
Proof.
  split.
  - etrans; [|reflexivity].
    apply (proj1 (last_other_spelling_wins
                    [("env", VString "a"); ("ENV", VString "b")])
             ["env"] "ENV" []); [reflexivity|discriminate|].
    by intros k' ?%elem_of_nil.
  - etrans; [|reflexivity].
    apply (proj1 (last_other_spelling_wins
                    [("ENV", VString "b"); ("env", VString "a")])
             [] "ENV" ["env"]); [reflexivity|discriminate|].
    by intros k' ->%list_elem_of_singleton.
Defined.

(** ** Tags *)

Lemma tag_get_head k v o : tag_get k ((k, v) :: o) = v.
Proof. simpl. by rewrite String.eqb_refl. Qed.

(** X14.  [convertTags] turns the tags object into its list of key and
    value pairs, in the order of the keys: for an object (whose keys are
    distinct) the list is the object's own entries, and for anything that
    is not a plain object it is empty. *)
Theorem convertTags_entries o :
  NoDup o.*1 ->
  convertTags (PlainTags o) = o /\ convertTags NotPlainTags = [].
Proof.
  intros Hnd. split; [|done]. unfold convertTags.
  induction o as [|[k v] o IH]; [done|].
  apply NoDup_cons in Hnd as [Hk Hnd].
  cbn [fmap list_fmap fst]. rewrite tag_get_head. f_equal.
  rewrite <- (IH Hnd) at 2.
  apply list_fmap_ext. intros i k' Hk'. f_equal. simpl.
  destruct (String.eqb k' k) eqn:E; [|done].
  apply String.eqb_eq in E as ->. destruct Hk.
  by eapply list_elem_of_lookup_2.
Qed.

Lemma convertTags_entries_witness :
  convertTags (PlainTags [("app", "my app"); ("department", "accounting")])
  = [("app", "my app"); ("department", "accounting")].
Proof.
  apply (convertTags_entries
           [("app", "my app"); ("department", "accounting")]).
  repeat constructor; rewrite ?elem_of_cons; [|by intros ?%elem_of_nil].
  intros [[=]|?%elem_of_nil]. done.
Defined.

Lemma summary_failure_stops_the_operation_witness :
  processStack Example.unreadableTemplate false Scenario.capabilities []
    "create" "demo" (Ok Scenario.template)
    (PlainObject [("Env", VString "prod")]) 100 5 10
  = (Rejected "ValidationError: Template format error: not well-formed",
     [CallGetTemplateSummary Scenario.template]).
Proof.
  apply (summary_failure_stops_the_operation Example.unreadableTemplate).
  - discriminate.
  - reflexivity.
Defined.

(** ** Create or update *)

Lemma polls_calls name requests e :
  e ∈ polls name requests -> is_poll e = true.
Proof. unfold polls. by intros (token & -> & _)%list_elem_of_fmap. Qed.

Lemma normalizeParams_calls cf templateObject params e :
  e ∈ (normalizeParams cf templateObject params).2 ->
  e = CallGetTemplateSummary templateObject.
Proof.
  unfold normalizeParams. repeat case_match; cbn [snd];
    rewrite ?list_elem_of_singleton; try done; by intros ?%elem_of_nil.
Qed.

Lemma processCfStack_calls cf action cfparms e :
  e ∈ (processCfStack cf action cfparms).2 ->
  (String.eqb action "update" = true
   /\ (e = CallUpdateStack cfparms
       \/ e = Log "No updates are to be performed."))
  \/ (String.eqb action "update" = false /\ e = CallCreateStack cfparms).
Proof.
  unfold processCfStack. destruct (String.eqb action "update");
    repeat case_match; cbn [snd];
    rewrite ?elem_of_cons, ?elem_of_nil; intuition (subst; auto).
Qed.

(** The stack calls a [processStack] issues are for its action: an update
    call only for "update", a create call only for another action. *)
Lemma processStack_calls
    cf async capabilities tags action name template cfParams now fuel ticks
    e :
  e ∈ (processStack cf async capabilities tags action name template
         cfParams now fuel ticks).2 ->
  match e with
  | CallUpdateStack _ => action = "update"
  | CallCreateStack _ => action <> "update"
  | _ => True
  end.
Proof.
  unfold processStack. destruct template as [templateObject|err];
    [|by intros ?%elem_of_nil].
  pose proof (normalizeParams_calls cf templateObject cfParams) as Hnorm.
  destruct (normalizeParams cf templateObject cfParams) as [[params|err] tr1];
    cbn [snd] in Hnorm.
  2:{ intros He. by rewrite (Hnorm e He). }
  set (cfparms := {| StackName := name; Capabilities := capabilities;
                     Parameters := params; Tags := tags;
                     Template := templateObject |}).
  pose proof (processCfStack_calls cf action cfparms) as Hcf.
  destruct (processCfStack cf action cfparms) as [[[]|err] tr2];
    cbn [snd] in Hcf.
  all: assert (e ∈ tr1 ++ tr2 ->
          match e with
          | CallUpdateStack _ => action = "update"
          | CallCreateStack _ => action <> "update"
          | _ => True
          end) as Hcalls
    by (rewrite elem_of_app; intros [He|He]; [by rewrite (Hnorm e He)|];
        destruct (Hcf e He) as [[Ha [->| ->]]|[Ha ->]]; try done;
        [by apply String.eqb_eq|by apply String.eqb_neq]).
  2: exact Hcalls.
  destruct async; [exact Hcalls|].
  destruct (checkStack now action name (describeStackEvents cf name)
              fuel ticks) as [p requests].
  cbn [snd]. rewrite app_assoc, elem_of_app. intros [He|He]; [by apply Hcalls|].
  apply polls_calls in He. by destruct e.
Qed.

Lemma processCfStack_issues cf action cfparms :
  (if String.eqb action "update"
   then CallUpdateStack cfparms else CallCreateStack cfparms)
  ∈ (processCfStack cf action cfparms).2.
Proof.
  unfold processCfStack. destruct (String.eqb action "update");
    repeat case_match; cbn [snd]; by left.
Qed.

Lemma processStack_issues
    cf async capabilities tags action name templateObject cfParams now
    fuel ticks params tr :
  normalizeParams cf templateObject cfParams = (Ok params, tr) ->
  let cfparms :=
    {| StackName := name; Capabilities := capabilities;
       Parameters := params; Tags := tags; Template := templateObject |} in
  (if String.eqb action "update"
   then CallUpdateStack cfparms else CallCreateStack cfparms)
  ∈ (processStack cf async capabilities tags action name (Ok templateObject)
       cfParams now fuel ticks).2.
Proof.
  intros Hnorm cfparms. unfold processStack. rewrite Hnorm. fold cfparms.
  pose proof (processCfStack_issues cf action cfparms) as Hcf.
  destruct (processCfStack cf action cfparms) as [[[]|err] tr2];
    cbn [snd] in Hcf.
  - destruct async.
    + cbn [snd]. rewrite elem_of_app. by right.
    + destruct (checkStack now action name (describeStackEvents cf name)
                  fuel ticks) as [p requests].
      cbn [snd]. rewrite !elem_of_app. right. by left.
  - cbn [snd]. rewrite elem_of_app. by right.
Qed.

(** X15.  [createOrUpdate] probes the stack's name with [describeStacks]
    and takes the stack as existing when the answer has a first stack whose
    status is [CREATE_COMPLETE], [UPDATE_COMPLETE], [ROLLBACK_COMPLETE] or
    [UPDATE_ROLLBACK_COMPLETE].  It issues an update call only for an
    existing stack and a create call only for another (the probe failed,
    answered with no stack, or with another status); and once the template
    and the parameters are ready it does issue that call, with the
    converted tags. *)
Theorem createOrUpdate_chooses_by_status
    cf describeStacks async capabilities tags name template cfParams now
    fuel ticks :
  let out :=
    createOrUpdate cf describeStacks async capabilities tags name template
                   cfParams now fuel ticks in
  let found :=
    exists stack rest,
      describeStacks name = Ok (stack :: rest)
      /\ Described.StackStatus stack ∈ exists_ in
  (forall cfparms, CallUpdateStack cfparms ∈ out.2 -> found)
  /\ (forall cfparms, CallCreateStack cfparms ∈ out.2 -> ~ found)
  /\ (forall templateObject params tr,
        template = Ok templateObject ->
        normalizeParams cf templateObject cfParams = (Ok params, tr) ->
        let cfparms :=
          {| StackName := name; Capabilities := capabilities;
             Parameters := params; Tags := convertTags tags;
             Template := templateObject |} in
        (found -> CallUpdateStack cfparms ∈ out.2)
        /\ (~ found -> CallCreateStack cfparms ∈ out.2)).
Proof.
  intros out found. subst out found. unfold createOrUpdate.
  assert (stackExists describeStacks name None = true <->
          exists stack rest,
            describeStacks name = Ok (stack :: rest)
            /\ Described.StackStatus stack ∈ exists_) as Hex.
  { unfold stackExists, target. cbn [truthy].
    destruct (describeStacks name) as [[|stack rest]|err].
    - split; [done|]. by intros (? & ? & [=] & _).
    - rewrite includes_spec. split; [by eauto|].
      by intros (? & ? & [= <- <-] & ?).
    - split; [done|]. by intros (? & ? & [=] & _). }
  split_and!.
  - intros cfparms Hin. apply processStack_calls in Hin.
    apply Hex. by destruct (stackExists describeStacks name None).
  - intros cfparms Hin. apply processStack_calls in Hin.
    rewrite <- Hex. by destruct (stackExists describeStacks name None).
  - intros templateObject params tr -> Hnorm.
    set (cfparms := {| StackName := name; Capabilities := capabilities;
                       Parameters := params; Tags := convertTags tags;
                       Template := templateObject |}).
    pose proof (processStack_issues cf async capabilities (convertTags tags)
                  (if stackExists describeStacks name None
                   then "update" else "create")
                  name templateObject cfParams now fuel ticks params tr
                  Hnorm) as Hissue.
    cbv zeta in Hissue. fold cfparms in Hissue.
    rewrite <- Hex.
    by destruct (stackExists describeStacks name None); split.
Qed.

(** ** Delete *)

(** X16.  A delete of a stack that is gone resolves at the first tick.
    When the delete call is accepted, the operation is not asynchronous and
    the first request for the event log is answered with "ValidationError:
    Stack [<name>] does not exist", the operation resolves, and what it
    issued is the delete call and that one request, however long the timer
    is followed.  (The name is on one line.) *)
Theorem delete_of_missing_stack_resolves
    cf name overrideName now fuel ticks :
  let StackName := target name overrideName in
  one_line StackName = true ->
  deleteStack cf StackName = Ok () ->
  describeStackEvents cf StackName 0%nat None
    = Err (String.append "ValidationError: Stack ["
             (String.append StackName "] does not exist")) ->
  delete_ cf false name overrideName now (S fuel) (S ticks)
  = (Resolved,
     [CallDeleteStack StackName; CallDescribeStackEvents StackName None]).
Proof.
  intros StackName Hline Hdelete Hgone.
  unfold delete_. fold StackName. rewrite Hdelete.
  unfold checkStack. cbn [run newPoller ticking].
  unfold outputNewStackEvents, catch.
  cbn [running getAllStackEvents getStackEvents]. rewrite Hgone.
  assert (Regex.test Patterns.notExists
            (String.append "ValidationError: Stack ["
               (String.append StackName "] does not exist")) = true) as ->.
  { apply test_whole.
    replace (String.append StackName "] does not exist")
      with (String.append (String.append StackName "]") " does not exist")
      by (by rewrite append_assoc).
    change (lang Patterns.notExists
              (String.append "ValidationError: Stack "
                 (String.append (String "[" (String.append StackName "]"))
                    " does not exist"))).
    apply lang_notExists; [done|].
    change (String "[" (String.append StackName "]"))
      with (String.append "[" (String.append StackName "]")).
    by rewrite !one_line_app, Hline. }
  cbn [running newPoller]. by rewrite run_stopped.
Qed.

Lemma delete_of_missing_stack_resolves_witness :
  delete_ Example.gone false "demo" None 100 5 10
  = (Resolved,
     [CallDeleteStack "demo"; CallDescribeStackEvents "demo" None]).
Proof.
  by apply (delete_of_missing_stack_resolves Example.gone "demo" None 100
              4 9).
Defined.

(** ** Outputs *)

Lemma keyed_other outs (m : gmap string string) field :
  field ∉ Described.OutputKey <$> outs ->
  foldl (fun m o => <[Described.OutputKey o := Described.OutputValue o]> m)
        m outs !! field
  = m !! field.
Proof.
  revert m. induction outs as [|o outs IH]; intros m Hnot; [done|].
  cbn [foldl]. rewrite fmap_cons, not_elem_of_cons in Hnot.
  destruct Hnot as [Hne Hnot]. rewrite IH by done.
  by rewrite lookup_insert_ne.
Qed.

(** X17.  [output] answers with the value of the output of the first stack
    that has the field as its key (of several such, the last one); an error
    of [describeStacks] is passed on.  When no output has the field as its
    key, or there is no stack or no list of outputs, it answers with the
    empty string, unless the field is the name of a property of
    [Object.prototype]: then it answers with what the object of the outputs
    inherits under that name. *)
Theorem output_of_field describeStacks name field :
  (forall err, describeStacks name = Err err ->
     output describeStacks name field = Err err)
  /\ (forall stack rest outs,
       describeStacks name = Ok (stack :: rest) ->
       Described.Outputs stack = Some outs ->
       (forall front o back,
          outs = front ++ o :: back ->
          Described.OutputKey o = field ->
          field ∉ Described.OutputKey <$> back ->
          output describeStacks name field
          = Ok (VString (Described.OutputValue o)))
       /\ (field ∉ Described.OutputKey <$> outs ->
           (field ∉ Object_prototype ->
            output describeStacks name field = Ok (VString ""))
           /\ (field ∈ Object_prototype ->
               output describeStacks name field = Ok (VInherited field))))
  /\ (forall stacks,
       describeStacks name = Ok stacks ->
       head stacks ≫= Described.Outputs = None ->
       (field ∉ Object_prototype ->
        output describeStacks name field = Ok (VString ""))
       /\ (field ∈ Object_prototype ->
           output describeStacks name field = Ok (VInherited field))).
Proof.
  unfold output, outputs. split_and!.
  - by intros err ->.
  - intros stack rest outs -> Houts. cbn [head mbind option_bind].
    rewrite Houts. cbn [default from_option id]. unfold keyed. split.
    + intros front o back -> Hkey Hback.
      rewrite foldl_app. cbn [foldl]. rewrite keyed_other by done.
      rewrite <- Hkey, lookup_insert_eq. unfold or_else. cbn [value_truthy].
      by destruct (String.eqb_spec (Described.OutputValue o) "") as [->|].
    + intros Hnot. rewrite keyed_other by done. rewrite lookup_empty.
      split.
      * intros Hown. by rewrite (not_inherited _ Hown).
      * intros Hinh. apply inherited_spec in Hinh. by rewrite Hinh.
  - intros stacks -> ->. cbn [default from_option id]. unfold keyed.
    cbn [foldl]. rewrite lookup_empty. split.
    + intros Hown. by rewrite (not_inherited _ Hown).
    + intros Hinh. apply inherited_spec in Hinh. by rewrite Hinh.
Qed.

Lemma output_of_field_witness :
  output Example.described "demo" "BucketUrl"
  = Ok (VString "http://test.conor.com")
  /\ output Example.described "demo" "Missing" = Ok (VString "")
  /\ output Example.described "demo" "constructor"
     = Ok (VInherited "constructor").
Proof.
  destruct (proj1 (proj2 (output_of_field Example.described "demo"
                            "BucketUrl")) _ _ _ eq_refl eq_refl)
    as [Hfound _].
  destruct (proj1 (proj2 (output_of_field Example.described "demo"
                            "Missing")) _ _ _ eq_refl eq_refl)
    as [_ Hmissing].
  destruct (proj1 (proj2 (output_of_field Example.described "demo"
                            "constructor")) _ _ _ eq_refl eq_refl)
    as [_ Hinherited].
  split_and!.
  - apply (Hfound [] _ _ eq_refl eq_refl).
    rewrite fmap_cons, not_elem_of_cons. split; [discriminate|].
    by intros ?%elem_of_nil.
  - apply Hmissing.
    + rewrite !fmap_cons, !not_elem_of_cons.
      split_and!; [discriminate..|]. by intros ?%elem_of_nil.
    + rewrite <- inherited_spec. discriminate.
  - apply Hinherited.
    + rewrite !fmap_cons, !not_elem_of_cons.
      split_and!; [discriminate..|]. by intros ?%elem_of_nil.
    + by left.
Defined.

(** ** What cleanup deletes *)

Section CleanupSafety.
Variable cf : ControlPlane.
Variable clock : nat -> Z.
Variable opts : CleanupOpts.

Lemma candidates_elem t listed stack :
  stack ∈ candidates clock opts t listed
  <-> exists i,
        listed !! i = Some stack
        /\ qualifies clock opts ((t + i)%nat, stack).
Proof.
  unfold candidates. rewrite list_elem_of_fmap. split.
  - intros ([t' s] & -> & [Hq Hin]%list_elem_of_filter).
    apply elem_of_lookup_imap in Hin as (i & y & [= -> ->] & Hi).
    by exists i.
  - intros (i & Hi & Hq). exists ((t + i)%nat, stack). split; [done|].
    apply list_elem_of_filter. split; [done|].
    apply elem_of_lookup_imap. by exists i, stack.
Qed.

(** When [loop] resolves it has read a listing to its end, and kept its
    candidates. *)
Lemma loop_resolved fuel :
  forall t next stacks kept t' tr,
    loop cf clock opts fuel t next stacks = (Some (Ok (kept, t')), tr) ->
    exists pages,
      listing_from cf next pages
      /\ kept = stacks
                ++ candidates clock opts t
                     (concat (Stacks.StackSummaries <$> pages)).
Proof.
  induction fuel as [|fuel IH]; intros t next stacks kept t' tr Hloop;
    [done|].
  cbn [loop] in Hloop.
  destruct (listStacks cf next) as [data|err] eqn:Hlist; [|done].
  rewrite each_candidates in Hloop.
  destruct (truthy (Stacks.NextToken data)) eqn:Htoken.
  - destruct (loop cf clock opts fuel _ (Stacks.NextToken data) _)
      as [r tr'] eqn:Hrec.
    simplify_eq. apply IH in Hrec as (pages & Hlisting & ->).
    exists (data :: pages). split.
    + split; [done|]. destruct pages as [|page' pages']; [done|].
      split; [by apply truthy_spec|done].
    + cbn [fmap list_fmap concat]. by rewrite candidates_app, app_assoc.
  - simplify_eq. exists [data]. split.
    + split; [done|]. destruct (Stacks.NextToken data) as [token|];
        [right|by left].
      cbn [truthy] in Htoken. apply negb_false_iff, String.eqb_eq in Htoken.
      by subst.
    + cbn [fmap list_fmap concat]. by rewrite app_nil_r.
Qed.

Lemma each_keeps t page stacks stack :
  stack ∈ stacks
  \/ (stack ∈ page /\ forall t', stale clock opts t' stack = true) ->
  stack ∈ (each clock opts t page stacks).1.
Proof.
  revert t stacks. induction page as [|s page IH]; intros t stacks Hin.
  - destruct Hin as [Hin|[Hin _]]; [done|by apply elem_of_nil in Hin].
  - simpl. apply IH. destruct Hin as [Hin|[Hin Hst]].
    + left. destruct (stale clock opts t s); [|done].
      apply elem_of_app. by left.
    + apply elem_of_cons in Hin as [->|Hin]; [|by right].
      left. rewrite Hst. apply elem_of_app. right. by left.
Qed.

Lemma loop_keeps fuel t next stacks kept t' tr stack :
  loop cf clock opts fuel t next stacks = (Some (Ok (kept, t')), tr) ->
  stack ∈ stacks
  \/ (exists token data,
        CallListStacks token ∈ tr /\ listStacks cf token = Ok data
        /\ stack ∈ Stacks.StackSummaries data
        /\ forall t', stale clock opts t' stack = true) ->
  stack ∈ kept.
Proof.
  revert t next stacks tr. induction fuel as [|fuel IH];
    intros t next stacks tr Hloop Hin; [done|].
  simpl in Hloop. destruct (listStacks cf next) as [data|err] eqn:Hlist;
    [|done].
  pose proof (each_keeps t (Stacks.StackSummaries data) stacks stack) as Hk.
  destruct (each clock opts t (Stacks.StackSummaries data) stacks)
    as [stacks' t1].
  cbn [fst] in Hk.
  destruct (truthy (Stacks.NextToken data)).
  - destruct (loop cf clock opts fuel t1 (Stacks.NextToken data) stacks')
      as [r tr'] eqn:Hrec.
    simplify_eq. apply (IH _ _ _ _ Hrec).
    destruct Hin as [Hin|(token & data' & Hreq & Hdata & Hpage & Hst)].
    + left. apply Hk. by left.
    + apply elem_of_cons in Hreq as [[= <-]|Hreq].
      * left. apply Hk. right. rewrite Hlist in Hdata. by simplify_eq.
      * right. by exists token, data'.
  - simplify_eq. apply Hk.
    destruct Hin as [Hin|(token & data' & Hreq & Hdata & Hpage & Hst)];
      [by left|].
    apply list_elem_of_singleton in Hreq as [= <-]. right.
    rewrite Hlist in Hdata. by simplify_eq.
Qed.

Lemma selected_subset stacks stack :
  stack ∈ selected opts stacks -> stack ∈ stacks.
Proof.
  unfold selected, take_. destruct (limit_set opts).
  - intros Hin%subseteq_take. by apply sortBy_elem_of in Hin.
  - apply sortBy_elem_of.
Qed.

Lemma cleanOne_no_listing chosen token :
  CallListStacks token ∉ concat (cleanOne opts <$> chosen).
Proof.
  induction chosen as [|s chosen IH]; [by intros ?%elem_of_nil|].
  cbn [fmap list_fmap concat]. rewrite elem_of_app. intros [Hin|Hin];
    [|done].
  unfold cleanOne in Hin. destruct (dryRun opts);
    repeat (apply elem_of_cons in Hin as [[=]|Hin]);
    by apply elem_of_nil in Hin.
Qed.

(** X18.  [cleanup] deletes only what it should: a delete call is issued
    only when this is no dry run and the whole listing was read, from its
    first page to the first page without a token, without an error; and
    only for the name of a stack on one of these pages whose name matches
    the pattern and which was created before the threshold at the reading
    of the clock at which it was looked at (the stacks are looked at one by
    one, in the order of the listing). *)
Theorem cleanup_deletes_only_stale_stacks fuel StackName :
  StackName ∈ deletes (cleanup cf clock opts fuel).2 ->
  dryRun opts = false
  /\ (cleanup cf clock opts fuel).1 = Some (Ok ())
  /\ exists pages i stack,
       listing_from cf None pages
       /\ concat (Stacks.StackSummaries <$> pages) !! i = Some stack
       /\ Stacks.StackName stack = StackName
       /\ regex opts (Stacks.StackName stack) = true
       /\ Stacks.CreationTime stack
          < clock (1 + i)%nat - default 0 (minutesOld opts) * 60000.
Proof.
  unfold cleanup.
  pose proof (loop_no_deletes cf clock opts fuel 1 None []) as Hnone.
  destruct (loop cf clock opts fuel 1 None []) as [[[[stacks t]|err]|] tr]
    eqn:Hloop; cbn [fst snd] in *.
  - rewrite deletes_app, Hnone, deletes_cleanOne. cbn [app].
    destruct (dryRun opts); [by intros ?%elem_of_nil|].
    intros (stack & -> & Hin)%list_elem_of_fmap.
    split_and!; [done..|].
    apply selected_subset in Hin.
    apply loop_resolved in Hloop as (pages & Hlisting & ->).
    cbn [app] in Hin. apply candidates_elem in Hin as (i & Hi & Hre & Hold).
    by exists pages, i, stack.
  - rewrite Hnone. by intros ?%elem_of_nil.
  - rewrite Hnone. by intros ?%elem_of_nil.
Qed.

(** X19.  Without a limit, and when this is no dry run, [cleanup] misses
    no stack: when it resolves, a delete call was issued for every stack on
    a page it requested that matches the pattern and is older than the
    threshold at every reading of the clock. *)
Theorem cleanup_without_limit_misses_nothing fuel tr token data stack :
  limit_set opts = false ->
  dryRun opts = false ->
  cleanup cf clock opts fuel = (Some (Ok ()), tr) ->
  CallListStacks token ∈ tr ->
  listStacks cf token = Ok data ->
  stack ∈ Stacks.StackSummaries data ->
  (forall t, stale clock opts t stack = true) ->
  Stacks.StackName stack ∈ deletes tr.
Proof.
  intros Hlimit Hdry Hclean Hreq Hdata Hpage Hst. unfold cleanup in Hclean.
  destruct (loop cf clock opts fuel 1 None []) as [[[[stacks t]|err]|] tr0]
    eqn:Hloop; simplify_eq.
  rewrite deletes_app, deletes_cleanOne, Hdry. apply elem_of_app. right.
  apply list_elem_of_fmap. exists stack. split; [done|].
  unfold selected. rewrite Hlimit. apply sortBy_elem_of.
  apply (loop_keeps _ _ _ _ _ _ _ _ Hloop). right.
  exists token, data. split_and!; try done.
  apply elem_of_app in Hreq as [Hreq|Hreq]; [done|].
  by apply cleanOne_no_listing in Hreq.
Qed.
End CleanupSafety.

Lemma cleanup_deletes_only_stale_stacks_witness :
  dryRun Scenario.oldestTwo = false
  /\ exists pages i stack,
       listing_from Scenario.withStacks None pages
       /\ concat (Stacks.StackSummaries <$> pages) !! i = Some stack
       /\ Stacks.StackName stack = "test-a"
       /\ regex Scenario.oldestTwo (Stacks.StackName stack) = true
       /\ Stacks.CreationTime stack
          < Scenario.clock (1 + i)%nat
            - default 0 (minutesOld Scenario.oldestTwo) * 60000.
Proof.
  destruct (cleanup_deletes_only_stale_stacks Scenario.withStacks
              Scenario.clock Scenario.oldestTwo 5 "test-a")
    as (Hdry & _ & Hstack); [|by split].
  replace (deletes (cleanup Scenario.withStacks Scenario.clock
                      Scenario.oldestTwo 5).2)
    with ["test-a"; "test-b"] by reflexivity.
  by left.
Defined.

Lemma cleanup_without_limit_misses_nothing_witness :
  "test-c"
  ∈ deletes (cleanup Scenario.withStacks Scenario.clock Example.allOld 5).2.
Proof.
  apply (cleanup_without_limit_misses_nothing Scenario.withStacks
           Scenario.clock Example.allOld 5 _ None
           {| Stacks.StackSummaries :=
                [Scenario.stack "test-c" 3000000;
                 Scenario.stack "prod-x" 500000];
              Stacks.NextToken := Some "n2" |}
           (Scenario.stack "test-c" 3000000)).
  - reflexivity.
  - reflexivity.
  - reflexivity.
  - by left.
  - reflexivity.
  - by left.
  - intros t. unfold stale, Scenario.clock. simpl.
    apply Z.ltb_lt. unfold ONE_MINUTE. lia.
Defined.
